(** * arrayify: the byte-to-C-string-literal transcoder of [arrayify.cpp]

    A shallow embedding of [escapeRequired], [escapedChar], [parse] and of
    [main] (the scan of the command line, the names it derives from paths,
    and the validation that leads to the call of [parse]), followed by the
    properties of the transcoder and of [main].

    Conventions of the model.
    - A [char] is a [byte] (one of the 256 constructors [x00] .. [xff]); the
      [switch] statements compare against unsigned constants below 0x80, so
      the signedness of [char] plays no role.
    - The output buffer [pOutputBuffer] is represented by the bytes stored in
      it since the last reset, so that [pOut - pOutputBuffer] is the length
      of that list; the bytes beyond [pOut] are never read by the program.
    - [int] values are kept in [Z].  Conversions between [int] and [size_t]
      are written out where [main] performs them, and the line counter is
      incremented as a 32-bit [int] ([to_int]).
    - The files are byte sequences (no newline translation).  Whether a
      [fwrite] of the flush path returns 1 is decided by the sink, a
      function from the number of the write to a boolean; [parse] and
      [parse_with] are the runs on a sink that accepts every write. *)

From Stdlib Require Import Strings.String Strings.Byte.
From Stdlib Require Import List ZArith Lia Bool.
Import ListNotations.
Local Open Scope Z_scope.

Definition bytes (s : string) : list byte := list_byte_of_string s.

(** ** Constants ([#define]s of the source) *)

Definition LINE_LENGTH : Z := 80.
(** [PREFIX] is the format "const char %s[] = "; [sprintf_PREFIX] is what
    [sprintf(pPrefix, PREFIX, pName)] stores. *)
Definition sprintf_PREFIX (pName : list byte) : list byte :=
  bytes "const char " ++ pName ++ bytes "[] = ".
Definition PREFIX_LENGTH : Z := 16.
Definition POSTFIX : list byte := [x22; x0a].
Definition POSTFIX_LENGTH : Z := 2.
Definition ENDFIX : list byte :=
  [x3b; x0a; x0a] ++ bytes "// End of file" ++ [x0a].
Definition ENDFIX_LENGTH : Z := 18.
Definition INT_MAX : Z := 2147483647.

(** The value of an integer expression as a [size_t] and as an [int]. *)
Definition to_size_t (x : Z) : Z := x mod 2 ^ 64.
Definition to_int (x : Z) : Z := (x + 2 ^ 31) mod 2 ^ 32 - 2 ^ 31.

(** The name is the content of a C string: it holds no NUL, so [strlen] is
    its length. *)
Definition strlen (s : list byte) : Z := Z.of_nat (length s).

(** ** The escape table *)

Definition escapeRequired (character : byte) : bool :=
  match character with
  | x07 => true (* Bell *)
  | x08 => true (* Backspace *)
  | x1b => true (* Escape *)
  | x0c => true (* page break *)
  | x0a => true (* newline *)
  | x0d => true (* carriage return *)
  | x09 => true (* tab *)
  | x0b => true (* vertical tab *)
  | x5c => true (* backslash *)
  | x27 => true (* single quote *)
  | x22 => true (* double quote *)
  | x3f => true (* question mark *)
  | _ => false
  end.

Definition escapedChar (character : byte) : byte :=
  match character with
  | x07 => x61 (* 'a' *)
  | x08 => x62 (* 'b' *)
  | x1b => x65 (* 'e' *)
  | x0c => x66 (* 'f' *)
  | x0a => x6e (* 'n' *)
  | x0d => x72 (* 'r' *)
  | x09 => x74 (* 't' *)
  | x0b => x76 (* 'v' *)
  | x5c => x5c (* backslash *)
  | x27 => x27 (* single quote *)
  | x22 => x22 (* double quote *)
  | x3f => x3f (* question mark *)
  | c => c
  end.

(** ** The output file *)

(** A stream: the text of the file, the file position, and the error
    indicator of the stream ([ferror]). *)
Record FILE := mkFILE {
  contents : list byte;
  position : nat;
  error : bool
}.

Definition fopen_w : FILE := mkFILE [] 0 false.

(** [fwrite] (and [fprintf]) of a block at the current position. *)
Definition fwrite (data : list byte) (f : FILE) : FILE :=
  mkFILE (firstn (position f) (contents f) ++ data
            ++ skipn (position f + length data) (contents f))
         (position f + length data) (error f).

(** A [fwrite] that the sink refuses sets the error indicator; what it
    leaves in the file is not determined, and the text is kept as it was. *)
Definition fwrite_refused (f : FILE) : FILE :=
  mkFILE (contents f) (position f) true.

(** [fseek(f, delta, SEEK_CUR)]: a negative resulting position is refused
    and leaves the position where it was. *)
Definition fseek_cur (delta : Z) (f : FILE) : FILE :=
  let p := Z.of_nat (position f) + delta in
  if p <? 0 then f else mkFILE (contents f) (Z.to_nat p) (error f).

(** ** The run state of [parse] *)

Record state := mkState {
  outBuf : list byte;            (* pOutputBuffer[0 .. pOut) *)
  pPrefix : option (list byte);  (* None once freed *)
  addEscaped : Z;
  writeLine : bool;
  linesWritten : Z;
  fwrites : list (list byte)     (* the blocks the flush path handed to fwrite *)
}.

Definition offset (st : state) : Z := Z.of_nat (length (outBuf st)).

(** [*pOut = ch; pOut++] *)
Definition put (ch : byte) (st : state) : state :=
  mkState (outBuf st ++ [ch]) (pPrefix st) (addEscaped st) (writeLine st)
          (linesWritten st) (fwrites st).

(** [free(pPrefix); pPrefix = NULL] *)
Definition free_prefix (st : state) : state :=
  mkState (outBuf st) None (addEscaped st) (writeLine st)
          (linesWritten st) (fwrites st).

Definition set_addEscaped (n : Z) (st : state) : state :=
  mkState (outBuf st) (pPrefix st) n (writeLine st)
          (linesWritten st) (fwrites st).

Definition set_writeLine (b : bool) (st : state) : state :=
  mkState (outBuf st) (pPrefix st) (addEscaped st) b
          (linesWritten st) (fwrites st).

(** [if (fwrite(...) == 1) linesWritten++], where [written] tells whether
    [fwrite] returned 1; the counter is an [int], and the wrap-around stands
    for what an overflow would leave. *)
Definition count_line (written : bool) (n : Z) : Z :=
  if written then to_int (n + 1) else n.

(** Add the post-fix, write the line and reset parameters. *)
Definition flush (written : bool) (st : state) : state :=
  mkState [] (pPrefix st) (addEscaped st) false
          (count_line written (linesWritten st))
          (fwrites st ++ [outBuf st ++ POSTFIX]).

Section Loop.

Variable pName : list byte.
Variable lineLength : Z.
(** Whether the [fwrite] number [k] of the flush path (counted from 0)
    returns 1. *)
Variable fwrite_ok : nat -> bool.

Definition prefixLength : Z := PREFIX_LENGTH + strlen pName.

(** The branches of the loop body that assemble the output buffer for the
    input character [c = *pIn]; the boolean tells whether [pIn] was
    advanced. *)
Definition assemble (c : byte) (st : state) : state * bool :=
  if offset st <? prefixLength then
    (put (match pPrefix st with
          | Some p => nth (Z.to_nat (offset st)) p x00
          | None => x20
          end) st, false)
  else if offset st =? prefixLength then
    (put x22 (free_prefix st), false)
  else if addEscaped st =? 2 then
    (set_addEscaped (addEscaped st - 1) (put x5c st), false)
  else if addEscaped st =? 1 then
    (set_addEscaped (addEscaped st - 1) (put (escapedChar c) st), true)
  else if escapeRequired c then
    (let st1 := set_addEscaped 2 st in
     if offset st >? lineLength - POSTFIX_LENGTH - 2
     then set_writeLine true st1 else st1, false)
  else (put c st, true).

(** The end of the loop body: write the line when it is full or when a
    flush was requested. *)
Definition line_check (st : state) : state :=
  if (offset st >=? lineLength - POSTFIX_LENGTH) || writeLine st
  then flush (fwrite_ok (length (fwrites st))) st else st.

Definition step (c : byte) (st : state) : state * bool :=
  let (st1, advanced) := assemble c st in (line_check st1, advanced).

(** The inner loop over one input buffer, [while (pIn < inputBuffer +
    bytesRead)].  One unit of fuel is spent per iteration; what is left
    is handed back. *)
Fixpoint inner (fuel : nat) (st : state) (buffer : list byte)
  : option (state * nat) :=
  match buffer with
  | [] => Some (st, fuel)
  | c :: rest =>
      match fuel with
      | O => None
      | S fuel' =>
          let (st', advanced) := step c st in
          inner fuel' st' (if advanced then rest else buffer)
      end
  end.

(** The outer loop over the buffers that [fread] delivers. *)
Fixpoint outer (fuel : nat) (st : state) (buffers : list (list byte))
  : option (state * nat) :=
  match buffers with
  | [] => Some (st, fuel)
  | b :: bs =>
      match inner fuel st b with
      | None => None
      | Some (st', fuel') => outer fuel' st' bs
      end
  end.

End Loop.

(** The buffers that successive [fread(inputBuffer, 1, size, pInputFile)]
    calls deliver until one returns 0. *)
Fixpoint fread_all (n : nat) (size : nat) (file : list byte)
  : list (list byte) :=
  match n with
  | O => []
  | S n' =>
      match firstn size file with
      | [] => []
      | b => b :: fread_all n' size (skipn size file)
      end
  end.

Definition fread_buffers (size : nat) (file : list byte) : list (list byte) :=
  fread_all (length file) size file.

Definition sizeof_inputBuffer : nat := 120.

(** ** [parse] *)

Record config := mkConfig {
  pInputFileName : list byte;
  pExeFileName : list byte;
  bare : bool;
  name : list byte;
  lineLen : Z
}.

Definition header (cfg : config) : list byte :=
  bytes "/* This file was created from input file " ++ pInputFileName cfg
    ++ bytes " by " ++ pExeFileName cfg ++ bytes " */" ++ [x0a; x0a].

Definition init_state (cfg : config) : state :=
  mkState [] (Some (sprintf_PREFIX (name cfg))) 0 false 0 [].

(** Write any characters that might be left in the output buffer. *)
Definition final_flush (fwrite_ok : nat -> bool) (st : state) : state :=
  if offset st >? 0
  then mkState (outBuf st) (pPrefix st) (addEscaped st) (writeLine st)
               (count_line (fwrite_ok (length (fwrites st))) (linesWritten st))
               (fwrites st ++ [outBuf st ++ POSTFIX])
  else st.

(** The blocks that the sink accepted, [k] being the number of the first. *)
Fixpoint accepted_from (fwrite_ok : nat -> bool) (k : nat)
    (blocks : list (list byte)) : list (list byte) :=
  match blocks with
  | [] => []
  | b :: bs =>
      if fwrite_ok k then b :: accepted_from fwrite_ok (S k) bs
      else accepted_from fwrite_ok (S k) bs
  end.

Definition accepted (fwrite_ok : nat -> bool) (blocks : list (list byte))
  : list (list byte) :=
  accepted_from fwrite_ok 0 blocks.

(** The sink that accepts every write. *)
Definition accept_all : nat -> bool := fun _ => true.

(** Seek back over the postfix and write the endfix. *)
Definition fixup (b : bool) (f : FILE) : FILE :=
  if b then fwrite [x3b; x0a] (fseek_cur (- POSTFIX_LENGTH) f)
  else fwrite ENDFIX (fseek_cur (- POSTFIX_LENGTH) f).

Record result := mkResult {
  file : FILE;               (* the output file when parse returns *)
  returned : Z;              (* the value parse returns *)
  lines : list (list byte)   (* the blocks handed to fwrite by the flush path *)
}.

(** The loops of [parse] on the input read in buffers of [size] bytes. *)
Definition run (fuel : nat) (size : nat) (fwrite_ok : nat -> bool)
    (cfg : config) (input : list byte) : option state :=
  match outer (name cfg) (lineLen cfg) fwrite_ok fuel (init_state cfg)
              (fread_buffers size input) with
  | None => None
  | Some (st, _) => Some (final_flush fwrite_ok st)
  end.

(** The writes of the flush path on the output file, [k] being the number
    of the first. *)
Fixpoint write_blocks (fwrite_ok : nat -> bool) (k : nat)
    (blocks : list (list byte)) (f : FILE) : FILE :=
  match blocks with
  | [] => f
  | b :: bs =>
      write_blocks fwrite_ok (S k) bs
        (if fwrite_ok k then fwrite b f else fwrite_refused f)
  end.

(** [parse], given whether its two [malloc] calls succeed, which writes
    the sink accepts, and the freshly opened output file. *)
Definition parse_sized (fuel : nat) (size : nat)
    (mallocOutputBuffer mallocPrefix : bool) (fwrite_ok : nat -> bool)
    (pOutputFile : FILE) (cfg : config) (input : list byte) : option result :=
  if mallocOutputBuffer && mallocPrefix then
    let f0 := if bare cfg then pOutputFile
              else fwrite (header cfg) pOutputFile in
    match run fuel size fwrite_ok cfg input with
    | None => None
    | Some st =>
        let f1 := write_blocks fwrite_ok 0 (fwrites st) f0 in
        Some (mkResult (fixup (bare cfg) f1) (linesWritten st) (fwrites st))
    end
  else Some (mkResult pOutputFile 0 []).

(** A file that holds [text], positioned at its end. *)
Definition at_end (text : list byte) : FILE :=
  mkFILE text (length text) false.

(** What [fprintf] of the header leaves in the file. *)
Definition heading (cfg : config) : list byte :=
  if bare cfg then [] else header cfg.

(** Iterations that are enough for an input (see [inner_total]). *)
Definition fuel_for (cfg : config) (input : list byte) : nat :=
  (length (name cfg) + 20) * length input.

(** [parse] on a sink, with buffers for its lines and enough fuel. *)
Definition parse_on (fwrite_ok : nat -> bool) (cfg : config)
    (input : list byte) : option result :=
  parse_sized (fuel_for cfg input) sizeof_inputBuffer true true fwrite_ok
              fopen_w cfg input.

Definition parse_with (size : nat) (cfg : config) (input : list byte)
  : option result :=
  parse_sized (fuel_for cfg input) size true true accept_all fopen_w cfg input.

Definition parse (cfg : config) (input : list byte) : option result :=
  parse_with sizeof_inputBuffer cfg input.

(** ** What the loop writes, line by line *)

(** The two characters of an escape sequence, or the character itself. *)
Definition encode (c : byte) : list byte :=
  if escapeRequired c then [x5c; escapedChar c] else [c].

Definition escape (seg : list byte) : list byte := flat_map encode seg.

Section Lines.

Variable pName : list byte.

Definition plen : nat := 16 + length pName.

(** What fills the prefix region of line number [n]: the prefix on the
    first line, blanks afterwards. *)
Definition lead (n : nat) : list byte :=
  match n with
  | O => sprintf_PREFIX pName
  | S _ => repeat x20 plen
  end.

(** The line that carries the input segment [seg]. *)
Definition render (n : nat) (seg : list byte) : list byte :=
  lead n ++ x22 :: escape seg ++ POSTFIX.

Fixpoint render_from (n : nat) (segs : list (list byte))
  : list (list byte) :=
  match segs with
  | [] => []
  | s :: ss => render n s :: render_from (S n) ss
  end.

End Lines.

Definition render_lines (pName : list byte) (segs : list (list byte)) :=
  render_from pName 0 segs.

(** ** The loop invariant *)

Section Invariant.

Variable pName : list byte.
Variable L : Z.

(** The character under the input cursor is one that gets escaped. *)
Definition head_escaped (rest : list byte) : Prop :=
  exists c r, rest = c :: r /\ escapeRequired c = true.

(** A line written inside the loop fills the line length, or misses it
    by one when it was written early to keep an escape pair together. *)
Definition full_line (l : list byte) : Prop :=
  L - 1 <= Z.of_nat (length l) <= L.

Definition sink_ok (segs : list (list byte)) (st : state) : Prop :=
  fwrites st = render_lines pName segs /\
  writeLine st = false /\
  Forall full_line (fwrites st).

(** The three states of the pending escape, with the part of the escape
    pair that is already in the buffer. *)
Inductive pending (st : state) (rest : list byte) : list byte -> Prop :=
| pending_idle :
    addEscaped st = 0 -> pending st rest []
| pending_armed :
    addEscaped st = 2 -> offset st <= L - 4 -> head_escaped rest ->
    pending st rest []
| pending_backslash :
    addEscaped st = 1 -> head_escaped rest -> pending st rest [x5c].

(** [Inv done rest st]: [st] is the state at the head of the loop when
    the input [done] has been consumed and [rest] is still to come. *)
Inductive Inv (done rest : list byte) (st : state) : Prop :=
| Inv_lead (segs : list (list byte)) :
    concat segs = done ->
    sink_ok segs st ->
    pPrefix st = match segs with
                 | [] => Some (sprintf_PREFIX pName)
                 | _ => None
                 end ->
    (length (outBuf st) <= plen pName)%nat ->
    outBuf st = firstn (length (outBuf st)) (lead pName (length segs)) ->
    addEscaped st = 0 \/ (addEscaped st = 2 /\ head_escaped rest) ->
    outBuf st = [] \/ rest <> [] ->
    Inv done rest st
| Inv_body (segs : list (list byte)) (cur pend : list byte) :
    concat segs ++ cur = done ->
    sink_ok segs st ->
    pPrefix st = None ->
    outBuf st = lead pName (length segs) ++ x22 :: escape cur ++ pend ->
    pending st rest pend ->
    offset st <= L - 3 ->
    Inv done rest st.

(** A bound on the iterations left before the input cursor advances. *)
Definition phi (st : state) : nat :=
  if offset st <=? prefixLength pName then
    (plen pName - length (outBuf st)) + 1
    + (if addEscaped st =? 2 then 2 else 3)
  else if addEscaped st =? 2 then 2
  else if addEscaped st =? 1 then 1
  else if offset st <=? L - 4 then 3
  else plen pName + 4.

End Invariant.

(** The line length [main] guarantees to [parse]: room for the prefix, the
    opening quote, one escape pair and the postfix; [lineLength + 1] is
    computed as an [int]. *)
Definition line_length_ok (cfg : config) : Prop :=
  prefixLength (name cfg) + 5 <= lineLen cfg < INT_MAX.

(** The lines of a run, described from the input: the input is cut into
    consecutive segments and line [n] carries segment [n]. *)
Definition laid_out (cfg : config) (input : list byte) (st : state) : Prop :=
  exists segs : list (list byte),
    concat segs = input /\
    fwrites st = render_lines (name cfg) segs /\
    Forall (fun l => Z.of_nat (length l) <= lineLen cfg) (fwrites st) /\
    Forall (full_line (lineLen cfg)) (removelast (fwrites st)).

(** ** Reading the literal back *)

(** The quoted content of a written line: what stands between the opening
    quote that ends the prefix region and the closing postfix. *)
Definition quoted_content (pName : list byte) (line : list byte) : list byte :=
  let body := skipn (plen pName + 1) line in
  firstn (length body - 2) body.

(** The adjacent string literals of the lines, concatenated. *)
Definition literal (pName : list byte) (ls : list (list byte)) : list byte :=
  concat (map (quoted_content pName) ls).

(** The character that the escape sequence with mnemonic [m] denotes, for
    the twelve escape sequences of the specification and no other. *)
Definition spec_escape_value (m : byte) : option byte :=
  match m with
  | x61 => Some x07 (* \a *)
  | x62 => Some x08 (* \b *)
  | x65 => Some x1b (* \e *)
  | x66 => Some x0c (* \f *)
  | x6e => Some x0a (* \n *)
  | x72 => Some x0d (* \r *)
  | x74 => Some x09 (* \t *)
  | x76 => Some x0b (* \v *)
  | x5c => Some x5c (* \\ *)
  | x27 => Some x27 (* \' *)
  | x22 => Some x22 (* \dq *)
  | x3f => Some x3f (* \? *)
  | _ => None
  end.

(** The characters that the specification never leaves as they are. *)
Definition spec_escaped (c : byte) : bool :=
  match c with
  | x07 | x08 | x1b | x0c | x0a | x0d | x09 | x0b
  | x5c | x27 | x22 | x3f => true
  | _ => false
  end.

(** Un-escaping, strictly: a backslash must be followed by one of the
    twelve mnemonics and the two denote one character; a character that is
    not one of the twelve denotes itself; anything else (a backslash with
    another or no character behind it, a double quote, a newline or another
    of the twelve on its own) is not a literal of the specification. *)
Fixpoint unescape (s : list byte) : option (list byte) :=
  match s with
  | [] => Some []
  | c :: rest =>
      if Byte.eqb c x5c then
        match rest with
        | [] => None
        | m :: rest' =>
            match spec_escape_value m, unescape rest' with
            | Some v, Some t => Some (v :: t)
            | _, _ => None
            end
        end
      else if spec_escaped c then None
      else match unescape rest with
           | Some t => Some (c :: t)
           | None => None
           end
  end.

(** The escape charset as the specification lists it: twelve characters
    become a backslash and a mnemonic, all others stand for themselves. *)
Definition spec_escape_table (c : byte) : list byte :=
  match c with
  | x07 => [x5c; x61] (* \a *)
  | x08 => [x5c; x62] (* \b *)
  | x1b => [x5c; x65] (* \e *)
  | x0c => [x5c; x66] (* \f *)
  | x0a => [x5c; x6e] (* \n *)
  | x0d => [x5c; x72] (* \r *)
  | x09 => [x5c; x74] (* \t *)
  | x0b => [x5c; x76] (* \v *)
  | x5c => [x5c; x5c] (* \\ *)
  | x27 => [x5c; x27] (* \' *)
  | x22 => [x5c; x22] (* \dq *)
  | x3f => [x5c; x3f] (* \? *)
  | c => [c]
  end.

(** A content that stops between the backslash of an escape sequence and
    its second character. *)
Fixpoint ends_inside_escape (content : list byte) : bool :=
  match content with
  | [] => false
  | c :: rest =>
      if Byte.eqb c x5c then
        match rest with
        | [] => true
        | _ :: rest' => ends_inside_escape rest'
        end
      else ends_inside_escape rest
  end.

(** The layout in which the opening quote is written once for the whole
    run: the first line carries the prefix and the opening quote, every
    later line starts with literal content at column 0. *)
Definition spec_quote_once_layout (pName : list byte) (ls : list (list byte))
  : Prop :=
  match ls with
  | [] => True
  | first :: later =>
      (exists seg, first = sprintf_PREFIX pName ++ x22 :: escape seg ++ POSTFIX)
      /\ Forall (fun l => exists seg, l = escape seg ++ POSTFIX) later
  end.

(** ** The states a run goes through *)

(** [reaches pName L fwrite_ok st0 in0 st rest]: the loop started in [st0]
    on the input [in0] is, after some iterations, in [st] with [rest] to
    read. *)
Inductive reaches (pName : list byte) (L : Z) (fwrite_ok : nat -> bool)
    (st0 : state) (in0 : list byte) : state -> list byte -> Prop :=
| reaches_start : reaches pName L fwrite_ok st0 in0 st0 in0
| reaches_step st c rest st' advanced :
    reaches pName L fwrite_ok st0 in0 st (c :: rest) ->
    step pName L fwrite_ok c st = (st', advanced) ->
    reaches pName L fwrite_ok st0 in0 st'
            (if advanced then rest else c :: rest).

(** ** [main], from the validation of the command line on *)

(** What the scan of [argv] leaves behind. *)
Record cmdline := mkCmdline {
  argInputFileName : option (list byte);
  argVariableName : option (list byte);   (* -n *)
  argLineLength : Z;                      (* atoi of -l, or LINE_LENGTH *)
  argBare : bool;                         (* -b *)
  argOutputFileName : option (list byte)  (* -o *)
}.

(** What the run finds outside the program. *)
Record environment := mkEnvironment {
  pExeName : list byte;            (* as printf shows it *)
  inputFile : option (list byte);  (* None: fopen of the input fails *)
  pDefaultName : option (list byte);
    (* the input name without path and extension, as strtok leaves it;
       None is NULL *)
  mallocName : bool;
  mallocOutputFileName : bool;
  outputFileOpens : bool;
  mallocOutputBuffer : bool;       (* the two malloc calls of parse *)
  mallocPrefix : bool;
  fwriteOk : nat -> bool           (* the writes the output file accepts *)
}.

Inductive message : Type :=
| CannotOpenInput
| UsingLineLength (raised given : Z)
| CannotAllocateOutputFileName
| CannotAllocateName
| CannotOpenOutput
| Arrifying (pVariableName : list byte) (lineLength : Z)
| Done (x : Z)
| Usage.

(** The messages that report a failure. *)
Definition diagnostic (m : message) : bool :=
  match m with
  | CannotOpenInput | CannotAllocateOutputFileName | CannotAllocateName
  | CannotOpenOutput | Usage => true
  | UsingLineLength _ _ | Arrifying _ _ | Done _ => false
  end.

Record outcome := mkOutcome {
  retValue : Z;
  stdout : list message;
  pOutputFile : option FILE
}.

(** [PREFIX_LENGTH + strlen(pVariableName) + 5], a [size_t]. *)
Definition minLineLength (pVariableName : list byte) : Z :=
  to_size_t (PREFIX_LENGTH + strlen pVariableName + 5).

(** Check the line length. *)
Definition checkLineLength (pVariableName : list byte) (lineLength : Z)
  : Z * list message :=
  if (lineLength <? 0) || (to_size_t lineLength <? minLineLength pVariableName)
  then (to_int (minLineLength pVariableName),
        [UsingLineLength (minLineLength pVariableName) lineLength])
  else (lineLength, []).

(** [main] from the validation of the command line on.  The result is
    [None] when [main] does not return: when it hands a NULL name to
    [strlen] (lines 353 and 360; undefined behaviour, a crash in practice),
    or when the fuel of [parse] runs out. *)
Definition main (a : cmdline) (e : environment) : option outcome :=
  match argInputFileName a with
  | None => Some (mkOutcome (-1) [Usage] None)
  | Some inName =>
      match inputFile e with
      | None => Some (mkOutcome (-1) [CannotOpenInput; Usage] None)
      | Some input =>
          let prepared :=
            if mallocName e then
              (* if (pVariableName == NULL) pVariableName = pDefaultName *)
              match match argVariableName a with
                    | Some n => Some n
                    | None => pDefaultName e
                    end with
              | None => None                 (* strlen(pVariableName) *)
              | Some pVariableName =>
                  let (lineLength, m) :=
                    checkLineLength pVariableName (argLineLength a) in
                  match argOutputFileName a with
                  | Some o => Some (true, Some pVariableName, lineLength,
                                    Some o, m)
                  | None =>
                      match pDefaultName e with
                      | None => None         (* strlen(pDefaultName) *)
                      | Some d =>
                          if mallocOutputFileName e
                          then Some (true, Some pVariableName, lineLength,
                                     Some (d ++ bytes ".array"), m)
                          else Some (false, Some pVariableName, lineLength,
                                     None,
                                     m ++ [CannotAllocateOutputFileName])
                      end
                  end
              end
            else Some (false, argVariableName a, argLineLength a,
                       argOutputFileName a, [CannotAllocateName]) in
          match prepared with
          | None => None
          | Some (success, pVariableName, lineLength, pOutputFileName, msgs) =>
              let '(success, outFile, msgs) :=
                match pOutputFileName with
                | Some _ =>
                    if outputFileOpens e then (success, Some fopen_w, msgs)
                    else (false, None, msgs ++ [CannotOpenOutput])
                | None => (success, None, msgs)
                end in
              if success then
                match pVariableName with
                | None => None               (* strlen(pName) in parse *)
                | Some pVariableName =>
                    let cfg := mkConfig inName (pExeName e) (argBare a)
                                        pVariableName lineLength in
                    match parse_sized (fuel_for cfg input) sizeof_inputBuffer
                            (mallocOutputBuffer e) (mallocPrefix e)
                            (fwriteOk e) fopen_w cfg input with
                    | None => None
                    | Some r =>
                        Some (mkOutcome 0
                                (msgs ++ [Arrifying pVariableName lineLength;
                                          Done (returned r)])
                                (Some (file r)))
                    end
                end
              else Some (mkOutcome (-1) (msgs ++ [Usage]) outFile)
          end
      end
  end.

(** ** Sample configurations *)

Definition cfg_x (L : Z) (b : bool) : config :=
  mkConfig (bytes "in.txt") (bytes "arrayify") b (bytes "x") L.


(** ** Further notions about the lines *)

(** The characters of a quoted content that are not part of an escape
    sequence. *)
Fixpoint plain_chars (content : list byte) : list byte :=
  match content with
  | [] => []
  | c :: rest =>
      if Byte.eqb c x5c then
        match rest with
        | [] => []
        | _ :: rest' => plain_chars rest'
        end
      else c :: plain_chars rest
  end.

(** What the fix-up writes over the last postfix. *)
Definition endfix (b : bool) : list byte :=
  if b then [x3b; x0a] else ENDFIX.

(** The counter, as an [int], is the number of the blocks that the sink
    has accepted. *)
Definition counted (sink : nat -> bool) (st : state) : Prop :=
  linesWritten st
  = to_int (Z.of_nat (length (accepted sink (fwrites st)))).

(** ** The runs of [main] that succeed *)

(** The value of [success] when [main] decides whether to call [parse]:
    there is an input file argument, the input file opens, the copy of its
    name is allocated, there is an output file name (given, or allocated),
    and the output file opens. *)
Definition run_succeeds (a : cmdline) (e : environment) : bool :=
  match argInputFileName a, inputFile e with
  | Some _, Some _ =>
      mallocName e
      && match argOutputFileName a with
         | Some _ => true
         | None => mallocOutputFileName e
         end
      && outputFileOpens e
  | _, _ => false
  end.

(** The name of the array: the one given with -n, or the default one;
    [None] is NULL. *)
Definition variableName (a : cmdline) (e : environment)
  : option (list byte) :=
  match argVariableName a with
  | Some n => Some n
  | None => pDefaultName e
  end.

(** [main] gets to hand a NULL name to [strlen]: the input file opens, the
    copy of its name is allocated, the default name is NULL, and the array
    name or the output file name is to be taken from it. *)
Definition uses_null_name (a : cmdline) (e : environment) : bool :=
  match argInputFileName a, inputFile e, pDefaultName e with
  | Some _, Some _, None =>
      mallocName e
      && match argVariableName a, argOutputFileName a with
         | Some _, Some _ => false
         | _, _ => true
         end
  | _, _, _ => false
  end.

(** The run of [steps] iterations of the loop of [parse]; the number of
    iterations that were made is that of the steps as long as input is
    left. *)
Fixpoint iterate (pName : list byte) (L : Z) (fwrite_ok : nat -> bool)
    (steps : nat) (st : state) (buffer : list byte) : state * list byte :=
  match steps, buffer with
  | S n, c :: rest =>
      let (st', advanced) := step pName L fwrite_ok c st in
      iterate pName L fwrite_ok n st' (if advanced then rest else buffer)
  | _, _ => (st, buffer)
  end.

(** Where a run of [parse] on a sink that takes every write stands after
    [steps] iterations: the state, and the input that is left. *)
Definition after (steps : nat) (cfg : config) (input : list byte)
  : state * list byte :=
  iterate (name cfg) (lineLen cfg) accept_all steps (init_state cfg) input.

(** ** The scan of the command line *)

(** [strcmp(a, b) == 0] on the contents of two C strings. *)
Fixpoint streq (a b : list byte) : bool :=
  match a, b with
  | [], [] => true
  | x :: a', y :: b' => Byte.eqb x y && streq a' b'
  | _, _ => false
  end.

Definition set_variableName (v : list byte) (a : cmdline) : cmdline :=
  mkCmdline (argInputFileName a) (Some v) (argLineLength a) (argBare a)
            (argOutputFileName a).

Definition set_lineLength (n : Z) (a : cmdline) : cmdline :=
  mkCmdline (argInputFileName a) (argVariableName a) n (argBare a)
            (argOutputFileName a).

Definition set_bare (a : cmdline) : cmdline :=
  mkCmdline (argInputFileName a) (argVariableName a) (argLineLength a) true
            (argOutputFileName a).

Definition set_outputFileName (v : list byte) (a : cmdline) : cmdline :=
  mkCmdline (argInputFileName a) (argVariableName a) (argLineLength a)
            (argBare a) (Some v).

Section Scan.

(** [atoi] of the C library. *)
Variable atoi : list byte -> Z.

(** The loop over [argv[2 ..]]: an option that takes a value also consumes
    the next argument ([x++]), if there is one. *)
Fixpoint scan_options (args : list (list byte)) (a : cmdline) : cmdline :=
  match args with
  | [] => a
  | arg :: rest =>
      if streq arg (bytes "-n") then
        match rest with
        | [] => a
        | v :: rest' => scan_options rest' (set_variableName v a)
        end
      else if streq arg (bytes "-l") then
        match rest with
        | [] => a
        | v :: rest' => scan_options rest' (set_lineLength (atoi v) a)
        end
      else if streq arg (bytes "-b") then
        scan_options rest (set_bare a)
      else if streq arg (bytes "-o") then
        match rest with
        | [] => a
        | v :: rest' => scan_options rest' (set_outputFileName v a)
        end
      else scan_options rest a
  end.

(** The loop over the command line parameters: [argv[1]] is the input file
    name, the options follow. *)
Definition scan_argv (argv : list (list byte)) : cmdline :=
  match argv with
  | _ :: f :: rest =>
      scan_options rest (mkCmdline (Some f) None LINE_LENGTH false None)
  | _ => mkCmdline None None LINE_LENGTH false None
  end.

End Scan.

(** The scan of [args] stops on an option that takes a value and has none. *)
Fixpoint awaits_value (args : list (list byte)) : bool :=
  match args with
  | [] => false
  | arg :: rest =>
      if streq arg (bytes "-n") then
        match rest with [] => true | _ :: rest' => awaits_value rest' end
      else if streq arg (bytes "-l") then
        match rest with [] => true | _ :: rest' => awaits_value rest' end
      else if streq arg (bytes "-b") then awaits_value rest
      else if streq arg (bytes "-o") then
        match rest with [] => true | _ :: rest' => awaits_value rest' end
      else awaits_value rest
  end.

(** One of the four options. *)
Definition is_option (arg : list byte) : bool :=
  streq arg (bytes "-n") || streq arg (bytes "-l")
  || streq arg (bytes "-b") || streq arg (bytes "-o").

(** ** The names derived from paths *)

Definition DIR_SEPARATORS : list byte := [x5c; x2f].
Definition EXT_SEPARATOR : list byte := [x2e].
Definition OUTPUT_FILE_EXTENSION : list byte := bytes "array".

Definition is_delim (delims : list byte) (c : byte) : bool :=
  existsb (Byte.eqb c) delims.

(** [strtok] of the C library, on what is left of the string: it skips
    the delimiters in front, and fails (NULL) when nothing is left;
    otherwise the token runs up to the next delimiter, which it overwrites
    with a terminator, and the next call goes on behind it. *)
Fixpoint skip_delims (delims s : list byte) : list byte :=
  match s with
  | [] => []
  | c :: rest => if is_delim delims c then skip_delims delims rest else s
  end.

Fixpoint take_token (delims s : list byte) : list byte * list byte :=
  match s with
  | [] => ([], [])
  | c :: rest =>
      if is_delim delims c then ([], rest)
      else let (tok, behind) := take_token delims rest in (c :: tok, behind)
  end.

Definition strtok (delims s : list byte) : option (list byte * list byte) :=
  match skip_delims delims s with
  | [] => None
  | s' => Some (take_token delims s')
  end.

(** [pTmp = strtok(s, delims); while (pTmp != NULL) { found = pTmp; pTmp =
    strtok(NULL, delims); }]: the last token of [s], or what [found] was
    when there is none.  The result is [None] when the fuel runs out. *)
Fixpoint last_token (fuel : nat) (delims : list byte)
    (found : option (list byte)) (s : list byte)
  : option (option (list byte)) :=
  match fuel with
  | O => None
  | S fuel' =>
      match strtok delims s with
      | None => Some found
      | Some (tok, behind) => last_token fuel' delims (Some tok) behind
      end
  end.

(** The name of the program: the last component of [argv[0]], up to its
    extension if it has a name before one.  [Some None] is NULL. *)
Definition exeName (argv0 : list byte) : option (option (list byte)) :=
  match last_token (S (length argv0)) DIR_SEPARATORS None argv0 with
  | None => None
  | Some None => Some None
  | Some (Some p) =>
      Some (Some match strtok EXT_SEPARATOR p with
                 | Some (tok, _) => tok
                 | None => p
                 end)
  end.

(** The default name of the array: the copy of the input file name,
    lopping off any path and the extension.  [Some None] is NULL. *)
Definition defaultName (pInputFileName : list byte)
  : option (option (list byte)) :=
  match last_token (S (length pInputFileName)) DIR_SEPARATORS
                   (Some pInputFileName) pInputFileName with
  | None => None
  | Some None => Some None
  | Some (Some p) => Some (option_map fst (strtok EXT_SEPARATOR p))
  end.

(** ** Basic facts *)

Lemma prefixLength_plen pName : prefixLength pName = Z.of_nat (plen pName).
Proof. unfold prefixLength, PREFIX_LENGTH, strlen, plen. lia. Qed.

Lemma length_sprintf_PREFIX pName :
  length (sprintf_PREFIX pName) = plen pName.
Proof.
  unfold sprintf_PREFIX, plen. rewrite !length_app. simpl. lia.
Qed.

Lemma length_lead pName n : length (lead pName n) = plen pName.
Proof.
  destruct n; cbn [lead]; [apply length_sprintf_PREFIX | apply repeat_length].
Qed.

Lemma firstn_snoc_nth {A} (d : A) (l : list A) (k : nat) :
  (k < length l)%nat -> firstn (S k) l = firstn k l ++ [nth k l d].
Proof.
  revert k. induction l as [|a l IH]; intros k Hk; simpl in Hk; [lia|].
  destruct k as [|k]; [reflexivity|].
  cbn [firstn nth app]. rewrite <- IH by lia. reflexivity.
Qed.

Lemma escape_app a b : escape (a ++ b) = escape a ++ escape b.
Proof. apply flat_map_app. Qed.

Lemma escape_snoc_plain cur c :
  escapeRequired c = false -> escape (cur ++ [c]) = escape cur ++ [c].
Proof.
  intros H. rewrite escape_app. unfold escape at 2, encode. simpl.
  rewrite H. reflexivity.
Qed.

Lemma escape_snoc_escaped cur c :
  escapeRequired c = true ->
  escape (cur ++ [c]) = escape cur ++ [x5c] ++ [escapedChar c].
Proof.
  intros H. rewrite escape_app. unfold escape at 2, encode. simpl.
  rewrite H. reflexivity.
Qed.

Lemma render_from_length pName segs n :
  length (render_from pName n segs) = length segs.
Proof.
  revert n. induction segs; intros; simpl; [reflexivity | now rewrite IHsegs].
Qed.

Lemma render_from_snoc pName segs n s :
  render_from pName n (segs ++ [s])
  = render_from pName n segs ++ [render pName (n + length segs) s].
Proof.
  revert n. induction segs as [|a segs IH]; intros n; simpl.
  - now rewrite Nat.add_0_r.
  - rewrite IH. now replace (S n + length segs)%nat
      with (n + S (length segs))%nat by lia.
Qed.

Lemma concat_snoc {A} (ls : list (list A)) (l : list A) :
  concat (ls ++ [l]) = concat ls ++ l.
Proof. rewrite concat_app. simpl. now rewrite app_nil_r. Qed.

(** ** Reading in buffers does not matter *)

Lemma inner_app pName L sink fuel st a b :
  inner pName L sink fuel st (a ++ b)
  = match inner pName L sink fuel st a with
    | None => None
    | Some (st', fuel') => inner pName L sink fuel' st' b
    end.
Proof.
  revert st a. induction fuel as [|fuel IH]; intros st a.
  - destruct a; simpl; [destruct b|]; reflexivity.
  - destruct a as [|c a]; [reflexivity|].
    cbn [app inner]. destruct (step pName L sink c st) as [st' adv].
    destruct adv.
    + apply IH.
    + apply (IH st' (c :: a)).
Qed.

Lemma outer_concat pName L sink buffers fuel st :
  outer pName L sink fuel st buffers = inner pName L sink fuel st (concat buffers).
Proof.
  revert fuel st. induction buffers as [|b bs IH]; intros fuel st.
  - destruct fuel; reflexivity.
  - cbn [outer concat]. rewrite inner_app.
    destruct (inner pName L sink fuel st b) as [[st' fuel']|]; [apply IH | reflexivity].
Qed.

Lemma concat_fread_all size n file :
  (0 < size)%nat -> (length file <= n)%nat ->
  concat (fread_all n size file) = file.
Proof.
  intros Hs. revert file. induction n as [|n IH]; intros file Hn.
  - destruct file; [reflexivity | simpl in Hn; lia].
  - cbn [fread_all].
    destruct (firstn size file) as [|x b] eqn:E.
    + destruct file as [|y file]; [reflexivity|].
      destruct size; [lia | discriminate].
    + cbn [concat]. rewrite IH.
      * rewrite <- E. apply firstn_skipn.
      * rewrite length_skipn.
        destruct file; [destruct size; discriminate | cbn [length] in *; lia].
Qed.

Lemma concat_fread_buffers size file :
  (0 < size)%nat -> concat (fread_buffers size file) = file.
Proof. intros. apply concat_fread_all; [assumption | apply Nat.le_refl]. Qed.

(** ** The loop body, branch by branch *)

Lemma offset_put ch st : offset (put ch st) = offset st + 1.
Proof. unfold offset, put. cbn. rewrite length_app. simpl. lia. Qed.

(** Decide the comparisons of the goal that the context settles. *)
Ltac zcases :=
  rewrite ?Z.gtb_ltb, ?Z.geb_leb;
  repeat match goal with
    | |- context [?a <? ?b] =>
        first [ replace (a <? b) with true by (symmetry; apply Z.ltb_lt; lia)
              | replace (a <? b) with false by (symmetry; apply Z.ltb_ge; lia) ]
    | |- context [?a <=? ?b] =>
        first [ replace (a <=? b) with true by (symmetry; apply Z.leb_le; lia)
              | replace (a <=? b) with false by (symmetry; apply Z.leb_gt; lia) ]
    | |- context [?a =? ?b] =>
        first [ replace (a =? b) with true by (symmetry; apply Z.eqb_eq; lia)
              | replace (a =? b) with false by (symmetry; apply Z.eqb_neq; lia) ]
    end;
  cbv iota.

Section Body.

Variable pName : list byte.
Variable L : Z.
Variable sink : nat -> bool.
Hypothesis HL : prefixLength pName + 5 <= L.

Lemma line_check_keep st :
  offset st < L - 2 -> writeLine st = false -> line_check L sink st = st.
Proof.
  intros Ho Hw. unfold line_check, POSTFIX_LENGTH. rewrite Hw. zcases.
  reflexivity.
Qed.

Lemma line_check_full st :
  L - 2 <= offset st ->
  line_check L sink st = flush (sink (length (fwrites st))) st.
Proof.
  intros Ho. unfold line_check, POSTFIX_LENGTH. zcases. reflexivity.
Qed.

Lemma step_lead c st :
  offset st < prefixLength pName -> writeLine st = false ->
  step pName L sink c st
  = (put (match pPrefix st with
          | Some p => nth (Z.to_nat (offset st)) p x00
          | None => x20
          end) st, false).
Proof.
  intros Ho Hw. unfold step, assemble. zcases.
  rewrite line_check_keep; [reflexivity | rewrite offset_put; lia | exact Hw].
Qed.

Lemma step_quote c st :
  offset st = prefixLength pName -> writeLine st = false ->
  step pName L sink c st = (put x22 (free_prefix st), false).
Proof.
  intros Ho Hw. unfold step, assemble. zcases.
  rewrite line_check_keep; [reflexivity | | exact Hw].
  rewrite offset_put. unfold offset in *. cbn. lia.
Qed.

Lemma step_backslash c st :
  prefixLength pName < offset st -> addEscaped st = 2 ->
  offset st <= L - 4 -> writeLine st = false ->
  step pName L sink c st = (set_addEscaped 1 (put x5c st), false).
Proof.
  intros Ho Ha Hl Hw. unfold step, assemble. rewrite Ha. zcases.
  rewrite line_check_keep; [reflexivity | | exact Hw].
  change (offset (put x5c st) < L - 2). rewrite offset_put. lia.
Qed.

Lemma step_mnemonic c st :
  prefixLength pName < offset st -> addEscaped st = 1 ->
  step pName L sink c st
  = (line_check L sink (set_addEscaped 0 (put (escapedChar c) st)), true).
Proof.
  intros Ho Ha. unfold step, assemble. rewrite Ha. zcases. reflexivity.
Qed.

Lemma step_plain c st :
  prefixLength pName < offset st -> addEscaped st = 0 ->
  escapeRequired c = false ->
  step pName L sink c st = (line_check L sink (put c st), true).
Proof.
  intros Ho Ha He. unfold step, assemble. rewrite Ha, He. zcases.
  reflexivity.
Qed.

(** An escaped character that still fits: the pair is armed and nothing
    is written. *)
Lemma step_arm c st :
  prefixLength pName < offset st -> addEscaped st = 0 ->
  escapeRequired c = true -> offset st <= L - 4 ->
  writeLine st = false ->
  step pName L sink c st = (set_addEscaped 2 st, false).
Proof.
  intros Ho Ha He Hl Hw. unfold step, assemble, POSTFIX_LENGTH.
  rewrite Ha, He. zcases.
  rewrite line_check_keep; [reflexivity | | exact Hw].
  change (offset st < L - 2). lia.
Qed.

(** An escaped character too close to the end of the line: the line is
    written before the backslash. *)
Lemma step_arm_flush c st :
  prefixLength pName < offset st -> addEscaped st = 0 ->
  escapeRequired c = true -> L - 4 < offset st ->
  step pName L sink c st
  = (flush (sink (length (fwrites st))) (set_addEscaped 2 st), false).
Proof.
  intros Ho Ha He Hl. unfold step, assemble, POSTFIX_LENGTH.
  rewrite Ha, He. zcases.
  unfold line_check. cbn [writeLine set_writeLine].
  rewrite orb_true_r. reflexivity.
Qed.

End Body.

(** ** The invariant is kept by every iteration *)

Section Preservation.

Variable pName : list byte.
Variable L : Z.
Variable sink : nat -> bool.
Hypothesis HL : prefixLength pName + 5 <= L.

Lemma sink_ok_same segs st st' :
  sink_ok pName L segs st ->
  fwrites st' = fwrites st ->
  writeLine st' = false ->
  sink_ok pName L segs st'.
Proof.
  intros (Hw & _ & Hf) E1 E3. unfold sink_ok.
  rewrite E1. auto.
Qed.

Lemma sink_ok_flush segs cur st st' written :
  sink_ok pName L segs st ->
  fwrites st' = fwrites st ->
  outBuf st' = lead pName (length segs) ++ x22 :: escape cur ->
  L - 3 <= offset st' <= L - 2 ->
  sink_ok pName L (segs ++ [cur]) (flush written st').
Proof.
  intros (Hw & _ & Hf) E1 Hb Ho. unfold sink_ok, flush.
  cbn [fwrites linesWritten writeLine]. rewrite E1, Hw.
  repeat split.
  - unfold render_lines. rewrite render_from_snoc. cbn [Nat.add].
    unfold render. rewrite Hb, <- app_assoc. reflexivity.
  - apply Forall_app. split; [now rewrite <- Hw|].
    constructor; [|constructor]. unfold full_line, offset in *.
    rewrite length_app. cbn [length POSTFIX]. lia.
Qed.

Lemma lead_firstn_snoc (segs : list (list byte)) st ch :
  pPrefix st = match segs with
               | [] => Some (sprintf_PREFIX pName)
               | _ => None
               end ->
  (length (outBuf st) < plen pName)%nat ->
  ch = match pPrefix st with
       | Some p => nth (Z.to_nat (offset st)) p x00
       | None => x20
       end ->
  firstn (S (length (outBuf st))) (lead pName (length segs))
  = firstn (length (outBuf st)) (lead pName (length segs)) ++ [ch].
Proof.
  intros Hp Hk ->. rewrite Hp. unfold offset. rewrite Nat2Z.id.
  rewrite (firstn_snoc_nth x00) by (rewrite length_lead; exact Hk).
  f_equal. f_equal. destruct segs; cbn [length lead]; [reflexivity|].
  apply nth_repeat_lt. exact Hk.
Qed.

Lemma step_inv done c rest st st' adv :
  Inv pName L done (c :: rest) st ->
  step pName L sink c st = (st', adv) ->
  Inv pName L (if adv then done ++ [c] else done)
      (if adv then rest else c :: rest) st'.
Proof.
  pose proof (prefixLength_plen pName) as HP.
  intros [segs Hd Hs Hp Hk Hb Ha Hr | segs cur pend Hd Hs Hp Hb Hpe Hlen] Hstep.
  - (* in the prefix region *)
    assert (Hw : writeLine st = false) by apply Hs.
    destruct (Nat.eq_dec (length (outBuf st)) (plen pName)) as [Hfull|Hpart].
    + (* the opening quote *)
      rewrite step_quote in Hstep
        by (try assumption; unfold offset; lia).
      injection Hstep as <- <-.
      apply Inv_body with (segs := segs) (cur := []) (pend := []).
      * now rewrite app_nil_r.
      * now apply (sink_ok_same segs st).
      * reflexivity.
      * cbn. rewrite Hb at 1. rewrite Hfull, <- (length_lead pName (length segs)).
        now rewrite firstn_all.
      * destruct Ha as [Ha | [Ha He]].
        -- now apply pending_idle.
        -- apply pending_armed; [exact Ha | | exact He].
           rewrite offset_put. unfold offset. cbn. lia.
      * rewrite offset_put. unfold offset. cbn. lia.
    + (* a character of the prefix, or a blank *)
      rewrite step_lead in Hstep
        by (try assumption; unfold offset; lia).
      injection Hstep as <- <-.
      apply Inv_lead with (segs := segs); cbn [put outBuf pPrefix addEscaped].
      * exact Hd.
      * now apply (sink_ok_same segs st).
      * exact Hp.
      * rewrite length_app. cbn [length]. lia.
      * rewrite length_app. cbn [length]. rewrite Nat.add_1_r.
        rewrite (lead_firstn_snoc segs st _ Hp) by (try reflexivity; lia).
        now rewrite <- Hb.
      * exact Ha.
      * right. discriminate.
  - (* in the literal *)
    assert (Hw : writeLine st = false) by apply Hs.
    assert (Ho : prefixLength pName < offset st).
    { unfold offset. rewrite Hb, length_app, length_lead. cbn [length]. lia. }
    destruct Hpe as [Ha | Ha Hfit He | Ha He].
    + (* idle: look at the input character *)
      rewrite app_nil_r in Hb.
      destruct (escapeRequired c) eqn:Ec.
      * destruct (Z_le_gt_dec (offset st) (L - 4)) as [Hfit|Hnofit].
        -- rewrite step_arm in Hstep by assumption.
           injection Hstep as <- <-.
           apply Inv_body with (segs := segs) (cur := cur) (pend := []).
           ++ exact Hd.
           ++ now apply (sink_ok_same segs st).
           ++ exact Hp.
           ++ cbn. now rewrite app_nil_r.
           ++ apply pending_armed; [reflexivity | exact Hfit |].
              now exists c, rest.
           ++ exact Hlen.
        -- rewrite step_arm_flush in Hstep by (try assumption; lia).
           injection Hstep as <- <-.
           apply Inv_lead with (segs := segs ++ [cur]).
           ++ now rewrite concat_snoc.
           ++ apply (sink_ok_flush segs cur st); try reflexivity; try assumption.
              change (offset (set_addEscaped 2 st)) with (offset st). lia.
           ++ cbn. rewrite Hp. destruct segs; reflexivity.
           ++ cbn. lia.
           ++ reflexivity.
           ++ right. split; [reflexivity | now exists c, rest].
           ++ now left.
      * rewrite step_plain in Hstep by assumption.
        injection Hstep as <- <-.
        destruct (Z_lt_ge_dec (offset st + 1) (L - 2)) as [Hroom|Hend].
        -- rewrite line_check_keep by (rewrite ?offset_put; assumption).
           apply Inv_body with (segs := segs) (cur := cur ++ [c]) (pend := []).
           ++ now rewrite app_assoc, Hd.
           ++ now apply (sink_ok_same segs st).
           ++ exact Hp.
           ++ cbn. rewrite Hb, escape_snoc_plain by exact Ec.
              now rewrite app_nil_r, <- app_assoc.
           ++ now apply pending_idle.
           ++ rewrite offset_put. lia.
        -- rewrite line_check_full by (rewrite offset_put; lia).
           apply Inv_lead with (segs := segs ++ [cur ++ [c]]).
           ++ now rewrite concat_snoc, app_assoc, Hd.
           ++ apply (sink_ok_flush segs (cur ++ [c]) st);
                try reflexivity; try assumption.
              ** cbn. rewrite Hb, escape_snoc_plain by exact Ec.
                 now rewrite <- app_assoc.
              ** rewrite offset_put. lia.
           ++ cbn. rewrite Hp. destruct segs; reflexivity.
           ++ cbn. lia.
           ++ reflexivity.
           ++ now left.
           ++ now left.
    + (* armed: the backslash *)
      rewrite step_backslash in Hstep by assumption.
      injection Hstep as <- <-.
      rewrite app_nil_r in Hb.
      apply Inv_body with (segs := segs) (cur := cur) (pend := [x5c]).
      * exact Hd.
      * now apply (sink_ok_same segs st).
      * exact Hp.
      * cbn. rewrite Hb. now rewrite <- app_assoc.
      * now apply pending_backslash.
      * change (offset (put x5c st) <= L - 3). rewrite offset_put. lia.
    + (* the mnemonic *)
      rewrite step_mnemonic in Hstep by assumption.
      injection Hstep as <- <-.
      destruct He as (c' & r' & Hcr & Ec). injection Hcr as <- <-.
      set (st1 := set_addEscaped 0 (put (escapedChar c) st)).
      assert (Ho1 : offset st1 = offset st + 1) by apply offset_put.
      assert (Hb1 : outBuf st1
                    = lead pName (length segs) ++ x22 :: escape (cur ++ [c])).
      { cbn. rewrite Hb, escape_snoc_escaped by exact Ec.
        repeat (rewrite <- app_assoc || rewrite <- app_comm_cons).
        reflexivity. }
      destruct (Z_lt_ge_dec (offset st + 1) (L - 2)) as [Hroom|Hend].
      -- rewrite line_check_keep by (rewrite ?Ho1; assumption).
         apply Inv_body with (segs := segs) (cur := cur ++ [c]) (pend := []).
         ++ now rewrite app_assoc, Hd.
         ++ now apply (sink_ok_same segs st).
         ++ exact Hp.
         ++ rewrite Hb1. now rewrite app_nil_r.
         ++ now apply pending_idle.
         ++ rewrite Ho1. lia.
      -- rewrite line_check_full by (rewrite Ho1; lia).
         apply Inv_lead with (segs := segs ++ [cur ++ [c]]).
         ++ now rewrite concat_snoc, app_assoc, Hd.
         ++ apply (sink_ok_flush segs (cur ++ [c]) st);
              try reflexivity; try assumption.
            rewrite Ho1. lia.
         ++ cbn. rewrite Hp. destruct segs; reflexivity.
         ++ cbn. lia.
         ++ reflexivity.
         ++ now left.
         ++ now left.
Qed.

End Preservation.

(** ** The loop terminates *)

Section Termination.

Variable pName : list byte.
Variable L : Z.
Variable sink : nat -> bool.
Hypothesis HL : prefixLength pName + 5 <= L.

Lemma phi_pos st : (1 <= phi pName L st)%nat.
Proof.
  unfold phi.
  destruct (offset st <=? prefixLength pName); [lia|].
  destruct (addEscaped st =? 2); [lia|].
  destruct (addEscaped st =? 1); [lia|].
  destruct (offset st <=? L - 4); lia.
Qed.

Lemma phi_bound done rest st :
  Inv pName L done rest st -> (phi pName L st <= plen pName + 4)%nat.
Proof.
  intros _. unfold phi.
  destruct (offset st <=? prefixLength pName).
  - destruct (addEscaped st =? 2); lia.
  - destruct (addEscaped st =? 2); [lia|].
    destruct (addEscaped st =? 1); [lia|].
    destruct (offset st <=? L - 4); lia.
Qed.

Ltac phi_tac :=
  unfold phi, offset in *;
  cbn [put free_prefix set_addEscaped flush outBuf addEscaped] in *;
  rewrite ?length_app in *; cbn [length] in *;
  zcases; lia.

Lemma step_phi done c rest st st' :
  Inv pName L done (c :: rest) st ->
  step pName L sink c st = (st', false) ->
  (phi pName L st' < phi pName L st)%nat.
Proof.
  pose proof (prefixLength_plen pName) as HP.
  intros [segs Hd Hs Hp Hk Hb Ha Hr | segs cur pend Hd Hs Hp Hb Hpe Hlen] Hstep.
  - assert (Hw : writeLine st = false) by apply Hs.
    destruct (Nat.eq_dec (length (outBuf st)) (plen pName)) as [Hfull|Hpart].
    + rewrite step_quote in Hstep
        by (try assumption; unfold offset; lia).
      injection Hstep as <-.
      destruct Ha as [Ha | [Ha _]]; rewrite ?Ha; phi_tac.
    + rewrite step_lead in Hstep
        by (try assumption; unfold offset; lia).
      injection Hstep as <-.
      destruct Ha as [Ha | [Ha _]]; rewrite ?Ha; phi_tac.
  - assert (Hw : writeLine st = false) by apply Hs.
    assert (Ho : prefixLength pName < offset st).
    { unfold offset. rewrite Hb, length_app, length_lead. cbn [length]. lia. }
    clear Hb.
    destruct Hpe as [Ha | Ha Hfit He | Ha He].
    + destruct (escapeRequired c) eqn:Ec.
      * destruct (Z_le_gt_dec (offset st) (L - 4)) as [Hfit|Hnofit].
        -- rewrite step_arm in Hstep by assumption.
           injection Hstep as <-. phi_tac.
        -- rewrite step_arm_flush in Hstep by (try assumption; lia).
           injection Hstep as <-. phi_tac.
      * rewrite step_plain in Hstep by assumption. discriminate.
    + rewrite step_backslash in Hstep by assumption.
      injection Hstep as <-. phi_tac.
    + rewrite step_mnemonic in Hstep by assumption. discriminate.
Qed.

Lemma inner_total fuel : forall st done rest,
  Inv pName L done rest st ->
  rest = [] \/
    (phi pName L st + (plen pName + 4) * pred (length rest) <= fuel)%nat ->
  exists st' fuel',
    inner pName L sink fuel st rest = Some (st', fuel') /\
    Inv pName L (done ++ rest) [] st'.
Proof.
  induction fuel as [|fuel IH]; intros st done rest HI Hfuel.
  - destruct Hfuel as [-> | Hfuel].
    + exists st, O. rewrite app_nil_r. now split.
    + pose proof (phi_pos st). nia.
  - destruct rest as [|c r].
    + exists st, (S fuel). rewrite app_nil_r. now split.
    + destruct Hfuel as [Hnil | Hfuel]; [discriminate|].
      cbn [inner]. destruct (step pName L sink c st) as [st' adv] eqn:E.
      pose proof (step_inv pName L sink HL done c r st st' adv HI E) as HI'.
      destruct adv.
      * destruct (IH st' (done ++ [c]) r HI') as (st2 & f2 & E2 & HI2).
        { destruct r as [|c' r']; [now left | right].
          pose proof (phi_bound _ _ _ HI'). pose proof (phi_pos st).
          cbn [length pred] in *. nia. }
        exists st2, f2. split; [exact E2|].
        now rewrite <- app_assoc in HI2.
      * destruct (IH st' done (c :: r) HI') as (st2 & f2 & E2 & HI2).
        { right. pose proof (step_phi done c r st st' HI E). lia. }
        now exists st2, f2.
Qed.

End Termination.

(** ** The whole run *)

Lemma Inv_init cfg input :
  Inv (name cfg) (lineLen cfg) [] input (init_state cfg).
Proof.
  apply Inv_lead with (segs := []); cbn; auto.
  - repeat split. constructor.
  - lia.
Qed.

Lemma final_flush_spec sink cfg input st :
  line_length_ok cfg ->
  Inv (name cfg) (lineLen cfg) input [] st ->
  laid_out cfg input (final_flush sink st) /\
  addEscaped (final_flush sink st) = 0.
Proof.
  intros [HL _] HI. unfold final_flush.
  destruct HI as [segs Hd Hs Hp Hk Hb Ha Hr | segs cur pend Hd Hs Hp Hb Hpe Hlen].
  - destruct Hr as [Hr | Hr]; [|contradiction].
    destruct Hs as (Hw & _ & Hf).
    unfold offset. rewrite Hr. cbn. split.
    + exists segs. repeat split; try assumption.
      * eapply Forall_impl; [|exact Hf]. unfold full_line. intros; lia.
      * destruct (fwrites st) as [|l ls] using rev_ind; [constructor|].
        rewrite removelast_last. apply Forall_app in Hf. apply Hf.
    + destruct Ha as [Ha | [_ (c & r & Hcr & _)]]; [exact Ha | discriminate].
  - destruct Hs as (Hw & _ & Hf).
    assert (Hpos : 0 < offset st).
    { unfold offset. rewrite Hb, length_app. cbn [length]. lia. }
    replace (offset st >? 0) with true by (symmetry; apply Z.gtb_lt; exact Hpos).
    cbv iota. cbn [fwrites linesWritten addEscaped].
    assert (pend = [] /\ addEscaped st = 0) as [-> Ha].
    { destruct Hpe as [Ha | Ha Hfit (c & r & Hcr & _) | Ha (c & r & Hcr & _)];
        [now split | discriminate | discriminate]. }
    rewrite app_nil_r in Hb. split; [|exact Ha].
    exists (segs ++ [cur]). cbn [fwrites linesWritten]. repeat split.
    + now rewrite concat_snoc.
    + unfold render_lines. rewrite render_from_snoc, Hw. cbn [Nat.add].
      unfold render. rewrite Hb, <- app_assoc. reflexivity.
    + apply Forall_app. split.
      * eapply Forall_impl; [|exact Hf]. unfold full_line. intros; lia.
      * constructor; [|constructor]. unfold offset in Hlen.
        rewrite length_app. cbn [length POSTFIX]. lia.
    + rewrite removelast_last. exact Hf.
Qed.

Lemma run_inner size fuel sink cfg input :
  (0 < size)%nat ->
  run fuel size sink cfg input
  = match inner (name cfg) (lineLen cfg) sink fuel (init_state cfg) input with
    | None => None
    | Some (st, _) => Some (final_flush sink st)
    end.
Proof.
  intros Hs. unfold run. now rewrite outer_concat, concat_fread_buffers.
Qed.

Lemma run_spec size sink cfg input :
  line_length_ok cfg -> (0 < size)%nat ->
  exists st,
    run (fuel_for cfg input) size sink cfg input = Some st /\
    laid_out cfg input st /\ addEscaped st = 0.
Proof.
  intros Hok Hs. rewrite run_inner by exact Hs.
  destruct (inner_total (name cfg) (lineLen cfg) sink (proj1 Hok)
              (fuel_for cfg input) (init_state cfg) [] input
              (Inv_init cfg input)) as (st & f & E & HI).
  - destruct input as [|c r]; [now left | right].
    pose proof (prefixLength_plen (name cfg)) as HP.
    unfold fuel_for, phi, offset, plen in *.
    cbn [init_state outBuf addEscaped length pred].
    zcases. nia.
  - rewrite E. exists (final_flush sink st). split; [reflexivity|].
    now apply final_flush_spec.
Qed.

(** ** The loop keeps what every iteration keeps *)

Lemma inner_invariant pName L sink (P : state -> list byte -> Prop) :
  (forall c rest st st' adv,
     P st (c :: rest) -> step pName L sink c st = (st', adv) ->
     P st' (if adv then rest else c :: rest)) ->
  forall fuel st buffer st' fuel',
    P st buffer ->
    inner pName L sink fuel st buffer = Some (st', fuel') ->
    P st' [].
Proof.
  intros Hstep. induction fuel as [|fuel IH]; intros st buffer st' fuel' HP E.
  - destruct buffer; [|discriminate]. injection E as <- _. exact HP.
  - destruct buffer as [|c rest]; [injection E as <- _; exact HP|].
    cbn [inner] in E. destruct (step pName L sink c st) as [st1 adv] eqn:Es.
    eapply IH; [|exact E]. exact (Hstep c rest st st1 adv HP Es).
Qed.

(** The input cursor advances only behind the opening quote, and the step
    that advances it stores one character (the line may then be written). *)
Lemma step_advance_shape pName L sink c st st' :
  step pName L sink c st = (st', true) ->
  prefixLength pName < offset st /\
  (outBuf st' = [] \/ length (outBuf st') = S (length (outBuf st))).
Proof.
  unfold step, assemble.
  destruct (Z.ltb_spec (offset st) (prefixLength pName)); [discriminate|].
  destruct (Z.eqb_spec (offset st) (prefixLength pName)); [discriminate|].
  assert (Hput : forall ch s, outBuf s = outBuf st ->
            outBuf (line_check L sink (put ch s)) = [] \/
            length (outBuf (line_check L sink (put ch s)))
            = S (length (outBuf st))).
  { intros ch s Hs. unfold line_check. destruct (_ || _); [now left | right].
    cbn. rewrite Hs, length_app. cbn. lia. }
  destruct (addEscaped st =? 2); [discriminate|].
  destruct (addEscaped st =? 1).
  - intros E. injection E as <-. split; [lia|].
    unfold line_check. cbn [set_addEscaped put offset outBuf writeLine].
    destruct (_ || _); [now left | right].
    cbn. rewrite length_app. cbn. lia.
  - destruct (escapeRequired c); [discriminate|].
    intros E. injection E as <-. split; [lia|]. now apply Hput.
Qed.

(** The state in which the loops of a run end. *)
Lemma run_final size sink cfg input :
  line_length_ok cfg -> (0 < size)%nat ->
  exists st fuel',
    inner (name cfg) (lineLen cfg) sink (fuel_for cfg input) (init_state cfg)
          input = Some (st, fuel') /\
    Inv (name cfg) (lineLen cfg) input [] st /\
    run (fuel_for cfg input) size sink cfg input = Some (final_flush sink st).
Proof.
  intros Hok Hs.
  destruct (inner_total (name cfg) (lineLen cfg) sink (proj1 Hok)
              (fuel_for cfg input) (init_state cfg) [] input
              (Inv_init cfg input)) as (st & f & E & HI).
  - destruct input as [|c r]; [now left | right].
    pose proof (prefixLength_plen (name cfg)) as HP.
    unfold fuel_for, phi, offset, plen in *.
    cbn [init_state outBuf addEscaped length pred].
    zcases. nia.
  - exists st, f. split; [exact E|]. split; [exact HI|].
    rewrite run_inner by exact Hs. now rewrite E.
Qed.

Lemma length_render pName n seg :
  length (render pName n seg) = (plen pName + 3 + length (escape seg))%nat.
Proof.
  unfold render. rewrite length_app, length_lead. cbn [length].
  rewrite length_app. cbn [length POSTFIX]. lia.
Qed.

Lemma render_from_nonempty pName segs n :
  Forall (fun l => (plen pName + 4 <= length l)%nat) (render_from pName n segs) ->
  Forall (fun s => s <> []) segs.
Proof.
  revert n. induction segs as [|s segs IH]; intros n H; [constructor|].
  cbn [render_from] in H. inversion H as [|? ? Hs Hrest]; subst.
  constructor; [|exact (IH _ Hrest)].
  rewrite length_render in Hs. intros ->. cbn in Hs. lia.
Qed.

Lemma length_concat_nonempty {A} (ls : list (list A)) :
  Forall (fun l => l <> []) ls -> (length ls <= length (concat ls))%nat.
Proof.
  induction 1 as [|l ls Hl _ IH]; [apply Nat.le_refl|].
  cbn [length concat]. rewrite length_app.
  destruct l; [contradiction | cbn [length]; lia].
Qed.

(** Every line of a run carries a segment of the input that is not empty. *)
Lemma run_carries_input size sink cfg input :
  line_length_ok cfg -> (0 < size)%nat ->
  exists st segs,
    run (fuel_for cfg input) size sink cfg input = Some st /\
    concat segs = input /\
    fwrites st = render_lines (name cfg) segs /\
    Forall (fun s => s <> []) segs.
Proof.
  intros Hok Hsize. pose proof (proj1 Hok) as HL.
  pose proof (prefixLength_plen (name cfg)) as HP.
  destruct (run_final size sink cfg input Hok Hsize)
    as (st & f & E & HI & Hrun).
  (* a buffer that is not empty at a point where no input is left holds
     literal content *)
  assert (HJ : (length (outBuf st) <= plen (name cfg) + 1)%nat ->
               outBuf st = [] \/ @nil byte <> []).
  { apply (inner_invariant (name cfg) (lineLen cfg) sink
             (fun s rest => (length (outBuf s) <= plen (name cfg) + 1)%nat ->
                            outBuf s = [] \/ rest <> [])
             ) with (fuel := fuel_for cfg input) (st := init_state cfg)
                    (buffer := input) (fuel' := f); [| now left | exact E].
    intros c rest s s' adv _ Hs Hlen. destruct adv; [|right; discriminate].
    destruct (step_advance_shape _ _ _ _ _ _ Hs) as [Ho [Hn | Hn]];
      [now left|].
    unfold offset in Ho. lia. }
  destruct (final_flush_spec sink cfg input st Hok HI)
    as [(segs & Hc & Hw & _ & _) _].
  assert (Hlong : Forall (fun l => (plen (name cfg) + 4 <= length l)%nat)
                         (fwrites (final_flush sink st))).
  { assert (Hfull : Forall (full_line (lineLen cfg)) (fwrites st)).
    { destruct HI as [? _ Hs _ _ _ _ _ | ? ? ? _ Hs _ _ _ _]; apply Hs. }
    assert (Hloop : Forall (fun l => (plen (name cfg) + 4 <= length l)%nat)
                           (fwrites st)).
    { eapply Forall_impl; [|exact Hfull]. unfold full_line. intros l Hl. lia. }
    unfold final_flush. destruct (Z.gtb_spec (offset st) 0) as [Hpos|Hzero];
      [|exact Hloop].
    cbn [fwrites]. apply Forall_app. split; [exact Hloop|].
    constructor; [|constructor]. rewrite length_app. cbn [length POSTFIX].
    destruct (Nat.le_gt_cases (length (outBuf st)) (plen (name cfg) + 1))
      as [Hshort|Hlong]; [|lia].
    destruct (HJ Hshort) as [Hnil | Hne]; [|contradiction].
    unfold offset in Hpos. rewrite Hnil in Hpos. cbn in Hpos. lia. }
  exists (final_flush sink st), segs.
  split; [exact Hrun|]. split; [exact Hc|]. split; [exact Hw|].
  rewrite Hw in Hlong. exact (render_from_nonempty _ _ _ Hlong).
Qed.

(** ** The line counter *)

Lemma to_int_small x : - 2 ^ 31 <= x < 2 ^ 31 -> to_int x = x.
Proof. intros H. unfold to_int. rewrite Z.mod_small by lia. lia. Qed.

Lemma to_int_succ x : to_int (to_int x + 1) = to_int (x + 1).
Proof.
  unfold to_int.
  replace ((x + 2 ^ 31) mod 2 ^ 32 - 2 ^ 31 + 1 + 2 ^ 31)
    with ((x + 2 ^ 31) mod 2 ^ 32 + 1) by lia.
  rewrite Z.add_mod_idemp_l by lia.
  now replace (x + 2 ^ 31 + 1) with (x + 1 + 2 ^ 31) by lia.
Qed.

Lemma accepted_from_app sink k a b :
  accepted_from sink k (a ++ b)
  = accepted_from sink k a ++ accepted_from sink (k + length a) b.
Proof.
  revert k. induction a as [|x a IH]; intros k.
  - cbn. now rewrite Nat.add_0_r.
  - cbn [app accepted_from length]. rewrite IH.
    replace (S k + length a)%nat with (k + S (length a))%nat by lia.
    now destruct (sink k).
Qed.

Lemma accepted_snoc sink ws l :
  accepted sink (ws ++ [l])
  = accepted sink ws ++ (if sink (length ws) then [l] else []).
Proof.
  unfold accepted. rewrite accepted_from_app. cbn [Nat.add accepted_from].
  now destruct (sink (length ws)).
Qed.

Lemma accepted_from_length sink k ls :
  (length (accepted_from sink k ls) <= length ls)%nat.
Proof.
  revert k. induction ls as [|l ls IH]; intros k; [apply Nat.le_refl|].
  cbn [accepted_from]. specialize (IH (S k)).
  destruct (sink k); cbn [length]; lia.
Qed.

Lemma accepted_from_all sink k ls :
  (forall i, sink i = true) -> accepted_from sink k ls = ls.
Proof.
  intros Hall. revert k. induction ls as [|l ls IH]; intros k; [reflexivity|].
  cbn [accepted_from]. now rewrite Hall, IH.
Qed.

Lemma write_blocks_all sink k ls f :
  (forall i, sink i = true) ->
  write_blocks sink k ls f = fold_left (fun f l => fwrite l f) ls f.
Proof.
  intros Hall. revert k f. induction ls as [|l ls IH]; intros k f;
    [reflexivity|].
  cbn [write_blocks fold_left]. now rewrite Hall, IH.
Qed.

Lemma counted_line sink st buf :
  counted sink st ->
  count_line (sink (length (fwrites st))) (linesWritten st)
  = to_int (Z.of_nat (length (accepted sink (fwrites st ++ [buf])))).
Proof.
  unfold counted, count_line. intros ->. rewrite accepted_snoc.
  destruct (sink (length (fwrites st))).
  - rewrite to_int_succ, length_app. cbn [length]. f_equal. lia.
  - now rewrite app_nil_r.
Qed.

Lemma assemble_sink pName L c st :
  fwrites (fst (assemble pName L c st)) = fwrites st /\
  linesWritten (fst (assemble pName L c st)) = linesWritten st.
Proof.
  unfold assemble.
  repeat match goal with
         | |- context [if ?b then _ else _] => destruct b
         end; cbn; auto.
Qed.

Lemma step_counted pName L sink c st st' adv :
  counted sink st -> step pName L sink c st = (st', adv) -> counted sink st'.
Proof.
  intros Hc Hs. unfold step in Hs.
  destruct (assemble_sink pName L c st) as [Hf Hl].
  destruct (assemble pName L c st) as [st1 a]. cbn [fst] in Hf, Hl.
  injection Hs as <- _.
  assert (Hc1 : counted sink st1) by (unfold counted; now rewrite Hf, Hl).
  unfold line_check. destruct (_ || _); [|exact Hc1].
  unfold counted, flush. cbn [linesWritten fwrites].
  now apply counted_line.
Qed.

Lemma run_counted size sink fuel cfg input st :
  (0 < size)%nat ->
  run fuel size sink cfg input = Some st -> counted sink st.
Proof.
  intros Hs. rewrite run_inner by exact Hs.
  destruct (inner _ _ _ _ _ _) as [[st0 f]|] eqn:E; [|discriminate].
  intros H. injection H as <-.
  assert (Hc0 : counted sink st0).
  { apply (inner_invariant (name cfg) (lineLen cfg) sink
             (fun s _ => counted sink s)) with (fuel := fuel)
            (st := init_state cfg) (buffer := input) (fuel' := f);
      [| reflexivity | exact E].
    intros c rest s s' adv Hc Hstep. exact (step_counted _ _ _ _ _ _ _ Hc Hstep). }
  unfold final_flush. destruct (_ >? _); [|exact Hc0].
  unfold counted. cbn [linesWritten fwrites]. now apply counted_line.
Qed.

(** ** [parse] in terms of its lines *)

Lemma fwrite_at_end text data :
  fwrite data (at_end text) = at_end (text ++ data).
Proof.
  unfold fwrite, at_end. cbn [contents position].
  rewrite firstn_all, skipn_all2 by lia.
  now rewrite app_nil_r, length_app.
Qed.

Lemma fold_fwrite_at_end ls text :
  fold_left (fun f l => fwrite l f) ls (at_end text)
  = at_end (text ++ concat ls).
Proof.
  revert text. induction ls as [|l ls IH]; intros text; cbn [fold_left concat].
  - now rewrite app_nil_r.
  - rewrite fwrite_at_end, IH. now rewrite <- app_assoc.
Qed.

Lemma parse_sized_run size sink cfg input :
  parse_sized (fuel_for cfg input) size true true sink fopen_w cfg input
  = match run (fuel_for cfg input) size sink cfg input with
    | None => None
    | Some st =>
        Some (mkResult
                (fixup (bare cfg)
                   (write_blocks sink 0 (fwrites st) (at_end (heading cfg))))
                (linesWritten st) (fwrites st))
    end.
Proof.
  unfold parse_sized, heading. cbn [andb].
  destruct (run (fuel_for cfg input) size sink cfg input) as [st|];
    [|reflexivity].
  do 2 f_equal. f_equal. destruct (bare cfg); [reflexivity|].
  change (fwrite (header cfg) fopen_w) with (fwrite (header cfg) (at_end [])).
  now rewrite fwrite_at_end.
Qed.

Lemma write_blocks_at_end sink ls text :
  (forall i, sink i = true) ->
  write_blocks sink 0 ls (at_end text) = at_end (text ++ concat ls).
Proof.
  intros Hall. rewrite write_blocks_all by exact Hall.
  apply fold_fwrite_at_end.
Qed.

Lemma parse_with_run size cfg input :
  parse_with size cfg input
  = match run (fuel_for cfg input) size accept_all cfg input with
    | None => None
    | Some st =>
        Some (mkResult
                (fixup (bare cfg) (at_end (heading cfg ++ concat (fwrites st))))
                (linesWritten st) (fwrites st))
    end.
Proof.
  unfold parse_with. rewrite parse_sized_run.
  destruct (run (fuel_for cfg input) size accept_all cfg input) as [st|];
    [|reflexivity].
  now rewrite write_blocks_at_end by reflexivity.
Qed.

(** A run of [parse] on any sink, in terms of its lines. *)
Lemma parse_sized_laid_out size sink cfg input :
  line_length_ok cfg -> (0 < size)%nat ->
  exists r st,
    parse_sized (fuel_for cfg input) size true true sink fopen_w cfg input
    = Some r /\
    run (fuel_for cfg input) size sink cfg input = Some st /\
    lines r = fwrites st /\ returned r = linesWritten st /\
    file r = fixup (bare cfg)
               (write_blocks sink 0 (lines r) (at_end (heading cfg))) /\
    laid_out cfg input st.
Proof.
  intros Hok Hs.
  destruct (run_spec size sink cfg input Hok Hs) as (st & E & Hlay & _).
  rewrite parse_sized_run, E. eexists. exists st.
  split; [reflexivity|]. cbn [lines returned file]. auto.
Qed.

Lemma parse_with_laid_out size cfg input :
  line_length_ok cfg -> (0 < size)%nat ->
  exists r st,
    parse_with size cfg input = Some r /\
    lines r = fwrites st /\ returned r = linesWritten st /\
    file r = fixup (bare cfg) (at_end (heading cfg ++ concat (lines r))) /\
    laid_out cfg input st.
Proof.
  intros Hok Hs.
  destruct (run_spec size accept_all cfg input Hok Hs) as (st & E & Hlay & _).
  rewrite parse_with_run, E. eexists. exists st.
  split; [reflexivity|]. cbn [lines returned file]. auto.
Qed.

(** The size of the read buffer does not show in the result. *)
Lemma parse_with_size n m cfg input :
  (0 < n)%nat -> (0 < m)%nat ->
  parse_with n cfg input = parse_with m cfg input.
Proof.
  intros Hn Hm. rewrite !parse_with_run, !run_inner by assumption.
  reflexivity.
Qed.

Lemma parse_with_whole n cfg input :
  (0 < n)%nat ->
  parse_with n cfg input = parse_with (length input) cfg input.
Proof.
  intros Hn. destruct input as [|c input].
  - rewrite !parse_with_run. unfold run, fread_buffers. cbn [length fread_all].
    now destruct n.
  - apply parse_with_size; [exact Hn | cbn [length]; lia].
Qed.

(** ** Reading the lines back *)

Lemma quoted_content_render pName n seg :
  quoted_content pName (render pName n seg) = escape seg.
Proof.
  unfold quoted_content, render.
  replace (plen pName + 1)%nat with (length (lead pName n ++ [x22]))
    by (rewrite length_app, length_lead; reflexivity).
  replace (lead pName n ++ x22 :: escape seg ++ POSTFIX)
    with ((lead pName n ++ [x22]) ++ escape seg ++ POSTFIX)
    by (now rewrite <- app_assoc).
  rewrite skipn_app, Nat.sub_diag, skipn_all. cbn [skipn app].
  rewrite length_app. cbn [length POSTFIX].
  replace (length (escape seg) + 2 - 2)%nat with (length (escape seg)) by lia.
  rewrite firstn_app, Nat.sub_diag, firstn_all. cbn [firstn].
  apply app_nil_r.
Qed.

Lemma literal_render_from pName segs n :
  literal pName (render_from pName n segs) = escape (concat segs).
Proof.
  revert n. induction segs as [|s segs IH]; intros n; [reflexivity|].
  unfold literal in *. cbn [render_from map concat].
  now rewrite quoted_content_render, IH, escape_app.
Qed.

Lemma unescape_encode c s t :
  unescape s = Some t -> unescape (encode c ++ s) = Some (c :: t).
Proof. intros H. destruct c; cbn; rewrite H; reflexivity. Qed.

Lemma unescape_escape s : unescape (escape s) = Some s.
Proof.
  induction s as [|c s IH]; [reflexivity|].
  unfold escape in *. cbn [flat_map]. now apply unescape_encode.
Qed.

(** The reader takes no escape but the twelve, and no bare special
    character. *)
Example unescape_strict :
  unescape [x41; x5c] = None /\
  unescape [x5c; x71] = None /\
  unescape [x5c; x0a] = None /\
  unescape [x41; x22; x42] = None /\
  unescape [x41; x0a] = None /\
  unescape [x5c; x6e; x41; x5c; x3f] = Some [x0a; x41; x3f].
Proof. repeat split. Qed.

Lemma encode_table c : encode c = spec_escape_table c.
Proof. destruct c; reflexivity. Qed.

Lemma escape_table s : escape s = flat_map spec_escape_table s.
Proof.
  unfold escape. apply flat_map_ext. exact encode_table.
Qed.

Lemma ends_inside_escape_encode c s :
  ends_inside_escape (encode c ++ s) = ends_inside_escape s.
Proof. destruct c; reflexivity. Qed.

Lemma escape_complete s : ends_inside_escape (escape s) = false.
Proof.
  induction s as [|c s IH]; [reflexivity|].
  unfold escape in *. cbn [flat_map]. now rewrite ends_inside_escape_encode.
Qed.

Lemma map_quoted_content_render_from pName segs n :
  map (quoted_content pName) (render_from pName n segs) = map escape segs.
Proof.
  revert n. induction segs as [|s segs IH]; intros n; [reflexivity|].
  cbn [render_from map]. now rewrite quoted_content_render, IH.
Qed.

Lemma render_from_postfix pName segs n :
  Forall (fun l => exists body, l = body ++ POSTFIX)
         (render_from pName n segs).
Proof.
  revert n. induction segs as [|s segs IH]; intros n; cbn [render_from].
  - constructor.
  - constructor; [|apply IH].
    exists (lead pName n ++ x22 :: escape s). unfold render.
    now rewrite <- app_assoc.
Qed.

Ltac config_ok := unfold line_length_ok; vm_compute; split; congruence.

(** ** The properties of the transcoder *)

(** C1. Round trip: for every input (any of the 256 byte values), the
    quoted contents of the lines [parse] writes, concatenated, are a
    well-formed sequence of plain characters and of the twelve escape
    sequences, and reading it back ([unescape], which accepts nothing else)
    gives the input. *)
Theorem literal_roundtrip cfg input :
  line_length_ok cfg ->
  exists r,
    parse cfg input = Some r /\
    unescape (literal (name cfg) (lines r)) = Some input.
Proof.
  intros Hok.
  destruct (parse_with_laid_out sizeof_inputBuffer cfg input Hok)
    as (r & st & E & Hl & _ & _ & segs & Hc & Hw & _); [unfold sizeof_inputBuffer; lia|].
  exists r. split; [exact E|].
  rewrite Hl, Hw. unfold render_lines.
  rewrite literal_render_from, unescape_escape. now rewrite Hc.
Qed.

Lemma literal_roundtrip_witness :
  line_length_ok (cfg_x 22 false) /\
  exists r,
    parse (cfg_x 22 false) (bytes "A?CD") = Some r /\
    unescape (literal (name (cfg_x 22 false)) (lines r)) = Some (bytes "A?CD").
Proof.
  split; [config_ok|].
  apply (literal_roundtrip (cfg_x 22 false) (bytes "A?CD")). config_ok.
Defined.

(** C2. Escape charset: the literal that [parse] writes is the input in
    which exactly the twelve characters 0x07, 0x08, 0x1B, 0x0C, 0x0A, 0x0D,
    0x09, 0x0B, 0x5C, 0x27, 0x22, 0x3F are replaced by a backslash and
    their mnemonic a, b, e, f, n, r, t, v, backslash, single quote, double
    quote, question mark, and every other character (NUL and the
    characters above 0x7F among them) is copied as it is. *)
Theorem escape_charset cfg input :
  line_length_ok cfg ->
  (forall c, encode c = spec_escape_table c) /\
  exists r,
    parse cfg input = Some r /\
    literal (name cfg) (lines r) = flat_map spec_escape_table input.
Proof.
  intros Hok. split; [exact encode_table|].
  destruct (parse_with_laid_out sizeof_inputBuffer cfg input Hok)
    as (r & st & E & Hl & _ & _ & segs & Hc & Hw & _); [unfold sizeof_inputBuffer; lia|].
  exists r. split; [exact E|].
  rewrite Hl, Hw. unfold render_lines.
  now rewrite literal_render_from, Hc, escape_table.
Qed.

Lemma escape_charset_witness :
  line_length_ok (cfg_x 80 true) /\
  (forall c, encode c = spec_escape_table c) /\
  exists r,
    parse (cfg_x 80 true) [x00; x0a; xff; x5c] = Some r /\
    literal (name (cfg_x 80 true)) (lines r)
    = flat_map spec_escape_table [x00; x0a; xff; x5c].
Proof.
  split; [config_ok|].
  apply (escape_charset (cfg_x 80 true) [x00; x0a; xff; x5c]). config_ok.
Defined.

(** C3. For every line length [L] that [main] lets through, every input of
    at most [INT_MAX] bytes and every sink, [parse] returns the number of
    the lines that [fwrite] took on the flush path (the counter is stepped
    only when [fwrite] returns 1; the header and the fix-up are not among
    these writes); each line handed to [fwrite] ends with the postfix and
    is not longer than [L], counting the prefix or the blanks, the quotes
    and the newline.  On a sink that takes every write the returned value
    is the number of all the lines, and they are what the file holds after
    the heading when the fix-up starts. *)
Theorem lines_counted_and_bounded sink cfg input :
  line_length_ok cfg ->
  Z.of_nat (length input) <= INT_MAX ->
  exists r,
    parse_on sink cfg input = Some r /\
    returned r = Z.of_nat (length (accepted sink (lines r))) /\
    Forall (fun l => exists body, l = body ++ POSTFIX) (lines r) /\
    Forall (fun l => Z.of_nat (length l) <= lineLen cfg) (lines r) /\
    ((forall k, sink k = true) ->
     returned r = Z.of_nat (length (lines r)) /\
     file r = fixup (bare cfg) (at_end (heading cfg ++ concat (lines r)))).
Proof.
  intros Hok Hin.
  assert (Hsize : (0 < sizeof_inputBuffer)%nat) by (unfold sizeof_inputBuffer; lia).
  destruct (parse_sized_laid_out sizeof_inputBuffer sink cfg input Hok Hsize)
    as (r & st & E & Hrun & Hl & Hr & Hf & segs & Hc & Hw & Hle & _).
  pose proof (run_counted _ _ _ _ _ _ Hsize Hrun) as Hcount.
  destruct (run_carries_input sizeof_inputBuffer sink cfg input Hok Hsize)
    as (st' & segs' & Hrun' & Hc' & Hw' & Hne).
  assert (st' = st) by congruence. subst st'.
  assert (Hlen : (length (fwrites st) <= length input)%nat).
  { rewrite Hw'. unfold render_lines. rewrite render_from_length, <- Hc'.
    now apply length_concat_nonempty. }
  assert (Hacc : (length (accepted sink (fwrites st)) <= length (fwrites st))%nat)
    by apply accepted_from_length.
  assert (Hret : returned r = Z.of_nat (length (accepted sink (lines r)))).
  { rewrite Hr, Hl, Hcount. apply to_int_small. unfold INT_MAX in Hin. lia. }
  exists r. split; [exact E|]. split; [exact Hret|].
  split; [|split].
  - rewrite Hl, Hw. apply render_from_postfix.
  - rewrite Hl. exact Hle.
  - intros Hall. split.
    + rewrite Hret. unfold accepted. now rewrite accepted_from_all.
    + rewrite Hf. f_equal. now apply write_blocks_at_end.
Qed.

Lemma lines_counted_and_bounded_witness :
  line_length_ok (cfg_x 22 false) /\
  Z.of_nat (length (bytes "A?CD")) <= INT_MAX /\
  option_map (fun r => (returned r, length (lines r)))
             (parse_on (fun k => Nat.eqb k 1) (cfg_x 22 false) (bytes "A?CD"))
  = Some (1, 3%nat) /\
  exists r,
    parse_on (fun k => Nat.eqb k 1) (cfg_x 22 false) (bytes "A?CD") = Some r /\
    returned r
    = Z.of_nat (length (accepted (fun k => Nat.eqb k 1) (lines r))) /\
    Forall (fun l => exists body, l = body ++ POSTFIX) (lines r) /\
    Forall (fun l => Z.of_nat (length l) <= lineLen (cfg_x 22 false)) (lines r) /\
    ((forall k, (fun k => Nat.eqb k 1) k = true) ->
     returned r = Z.of_nat (length (lines r)) /\
     file r = fixup (bare (cfg_x 22 false))
                (at_end (heading (cfg_x 22 false) ++ concat (lines r)))).
Proof.
  split; [config_ok|]. split; [vm_compute; congruence|].
  split; [vm_compute; reflexivity|].
  apply (lines_counted_and_bounded (fun k => Nat.eqb k 1) (cfg_x 22 false)
           (bytes "A?CD")); [config_ok | vm_compute; congruence].
Defined.

(** C4. Chunk-boundary invariance: read in buffers of 1 byte, of 7 bytes
    or as a whole, an input gives the same result: the same file, the same
    lines and the same returned count. *)
Theorem chunk_invariance cfg input :
  line_length_ok cfg ->
  exists r,
    parse_with 1 cfg input = Some r /\
    parse_with 7 cfg input = Some r /\
    parse_with (length input) cfg input = Some r.
Proof.
  intros Hok.
  destruct (parse_with_laid_out 1 cfg input Hok) as (r & _ & E & _); [lia|].
  exists r. split; [exact E|].
  rewrite <- (parse_with_whole 7), (parse_with_size 7 1), E by lia.
  now split.
Qed.

Lemma chunk_invariance_witness :
  line_length_ok (cfg_x 22 false) /\
  exists r,
    parse_with 1 (cfg_x 22 false) (bytes "AB?DEFG?I") = Some r /\
    parse_with 7 (cfg_x 22 false) (bytes "AB?DEFG?I") = Some r /\
    parse_with (length (bytes "AB?DEFG?I")) (cfg_x 22 false)
      (bytes "AB?DEFG?I") = Some r.
Proof.
  split; [config_ok|].
  apply (chunk_invariance (cfg_x 22 false) (bytes "AB?DEFG?I")). config_ok.
Defined.

(** C10. The two characters of an escape sequence are on the same line:
    the lines carry consecutive segments of the input, the quoted content
    of each line is the escaped form of its whole segment, and so no
    content stops between a backslash and its mnemonic.  When an escaped
    character comes up too close to the end of the line, the line is
    written before the backslash ([step_arm_flush]). *)
Theorem escape_pairs_not_split cfg input :
  line_length_ok cfg ->
  exists r segs,
    parse cfg input = Some r /\
    concat segs = input /\
    map (quoted_content (name cfg)) (lines r) = map escape segs /\
    Forall (fun l => ends_inside_escape (quoted_content (name cfg) l) = false)
           (lines r).
Proof.
  intros Hok.
  destruct (parse_with_laid_out sizeof_inputBuffer cfg input Hok)
    as (r & st & E & Hl & _ & _ & segs & Hc & Hw & _);
    [unfold sizeof_inputBuffer; lia|].
  exists r, segs. split; [exact E|]. split; [exact Hc|].
  assert (Hq : map (quoted_content (name cfg)) (lines r) = map escape segs).
  { rewrite Hl, Hw. apply map_quoted_content_render_from. }
  split; [exact Hq|].
  apply Forall_forall. intros l Hin.
  apply (in_map (quoted_content (name cfg))) in Hin. rewrite Hq in Hin.
  apply in_map_iff in Hin. destruct Hin as (s & <- & _).
  apply escape_complete.
Qed.

Lemma escape_pairs_not_split_witness :
  line_length_ok (cfg_x 22 true) /\
  exists r segs,
    parse (cfg_x 22 true) (bytes "A?CD") = Some r /\
    concat segs = bytes "A?CD" /\
    map (quoted_content (name (cfg_x 22 true))) (lines r) = map escape segs /\
    Forall (fun l => ends_inside_escape
                       (quoted_content (name (cfg_x 22 true)) l) = false)
           (lines r).
Proof.
  split; [config_ok|].
  apply (escape_pairs_not_split (cfg_x 22 true) (bytes "A?CD")). config_ok.
Defined.

(** ** The opening quote *)

Lemma escape_cons_inv seg t b rest :
  escape seg ++ t = b :: rest ->
  (seg = [] /\ t = b :: rest) \/
  b = x5c \/
  (escapeRequired b = false /\ exists seg', escape seg' ++ t = rest).
Proof.
  destruct seg as [|c seg]; [now left|].
  unfold escape. cbn [flat_map]. unfold encode.
  destruct (escapeRequired c) eqn:Ec; cbn [app]; intros H; injection H as <- H.
  - right. now left.
  - right. right. split; [exact Ec|]. now exists seg.
Qed.

Ltac peel H :=
  apply escape_cons_inv in H;
  destruct H as [[_ H] | [H | [He [? H]]]];
  [discriminate H | discriminate H | try discriminate He; clear He].

(** C5, as the specification words it, fails: on the four characters ABCD,
    with the name x and line length 22, the second line does not start
    with literal content. *)
Lemma quote_once_counterexample :
  exists r,
    parse (cfg_x 22 true) (bytes "ABCD") = Some r /\
    ~ spec_quote_once_layout (bytes "x") (lines r).
Proof.
  eexists. split; [vm_compute; reflexivity|].
  cbn [lines spec_quote_once_layout]. intros [_ HF].
  inversion HF as [|l ls [seg Hseg] _]. symmetry in Hseg.
  do 17 peel Hseg. peel Hseg.
Qed.

Lemma render_from_later pName segs n :
  render_from pName (S n) segs
  = map (fun s => repeat x20 (plen pName) ++ x22 :: escape s ++ POSTFIX) segs.
Proof.
  revert n. induction segs as [|s segs IH]; intros n; [reflexivity|].
  cbn [render_from map]. now rewrite IH.
Qed.

(** C5, amended.  Every line has its own opening quote, at the end of the
    prefix region: the first line starts with the declaration prefix, every
    later line with as many blanks as the prefix is long, then comes the
    opening quote, the escaped form of a segment of the input, and the
    closing quote and newline.  The prefix is written once. *)
Theorem quote_on_every_line cfg input :
  line_length_ok cfg ->
  exists r segs,
    parse cfg input = Some r /\
    concat segs = input /\
    lines r =
      match segs with
      | [] => []
      | s :: later =>
          (sprintf_PREFIX (name cfg) ++ x22 :: escape s ++ POSTFIX)
          :: map (fun s' => repeat x20 (length (sprintf_PREFIX (name cfg)))
                              ++ x22 :: escape s' ++ POSTFIX) later
      end.
Proof.
  intros Hok.
  destruct (parse_with_laid_out sizeof_inputBuffer cfg input Hok)
    as (r & st & E & Hl & _ & _ & segs & Hc & Hw & _);
    [unfold sizeof_inputBuffer; lia|].
  exists r, segs. split; [exact E|]. split; [exact Hc|].
  rewrite Hl, Hw, length_sprintf_PREFIX. unfold render_lines.
  destruct segs as [|s later]; [reflexivity|].
  cbn [render_from]. now rewrite render_from_later.
Qed.

Lemma quote_on_every_line_witness :
  line_length_ok (cfg_x 22 true) /\
  exists r segs,
    parse (cfg_x 22 true) (bytes "ABCD") = Some r /\
    concat segs = bytes "ABCD" /\
    lines r =
      match segs with
      | [] => []
      | s :: later =>
          (sprintf_PREFIX (name (cfg_x 22 true)) ++ x22 :: escape s ++ POSTFIX)
          :: map (fun s' =>
                    repeat x20 (length (sprintf_PREFIX (name (cfg_x 22 true))))
                      ++ x22 :: escape s' ++ POSTFIX) later
      end.
Proof.
  split; [config_ok|].
  apply (quote_on_every_line (cfg_x 22 true) (bytes "ABCD")). config_ok.
Defined.

(** ** The empty input *)

Lemma length_header cfg :
  (2 <= length (header cfg))%nat /\
  exists h, header cfg = h ++ [x0a; x0a].
Proof.
  unfold header. split.
  - rewrite !length_app. cbn [length]. lia.
  - eexists. rewrite !app_assoc. reflexivity.
Qed.

Lemma run_empty fuel size sink cfg :
  run fuel size sink cfg [] = Some (init_state cfg).
Proof. reflexivity. Qed.

(** C6 (the code on the empty input).  Nothing is flushed: [parse] returns
    0 and writes no line; the fix-up then finds no postfix to seek back
    over.  In bare mode the file is just a semicolon and a newline; otherwise
    the endfix replaces the two newlines that end the header comment.  The
    declaration [const char name[] = ...] is not written. *)
Theorem empty_input_writes_no_statement cfg :
  exists r,
    parse cfg [] = Some r /\
    returned r = 0 /\
    lines r = [] /\
    contents (file r) =
      if bare cfg then [x3b; x0a]
      else firstn (length (header cfg) - 2) (header cfg) ++ ENDFIX.
Proof.
  unfold parse. rewrite parse_with_run, run_empty.
  eexists. split; [reflexivity|].
  cbn [returned lines file fwrites linesWritten init_state concat].
  do 2 (split; [reflexivity|]).
  rewrite app_nil_r. unfold heading.
  destruct (bare cfg) eqn:Eb; cbn [fixup]; [reflexivity|].
  destruct (length_header cfg) as [Hlen _].
  unfold fseek_cur, at_end, POSTFIX_LENGTH. cbn [position contents].
  replace (Z.of_nat (length (header cfg)) + - (2) <? 0) with false
    by (symmetry; apply Z.ltb_ge; lia).
  unfold fwrite. cbn [position contents].
  replace (Z.to_nat (Z.of_nat (length (header cfg)) + - (2)))
    with (length (header cfg) - 2)%nat by lia.
  rewrite skipn_all2 by (change (length ENDFIX) with 18%nat; lia).
  now rewrite app_nil_r.
Qed.

Example empty_input_bare :
  option_map (fun r => (contents (file r), returned r))
             (parse (cfg_x 80 true) [])
  = Some ([x3b; x0a], 0).
Proof. vm_compute. reflexivity. Qed.

Example empty_input_commented :
  option_map (fun r => (contents (file r), returned r))
             (parse (cfg_x 80 false) [])
  = Some (bytes "/* This file was created from input file in.txt by arrayify */"
            ++ ENDFIX, 0).
Proof. vm_compute. reflexivity. Qed.

(** ** The pending escape *)

Section Pending.

Variable pName : list byte.
Variable L : Z.
Variable sink : nat -> bool.
Hypothesis HL : prefixLength pName + 5 <= L.

Lemma Inv_pending done rest st :
  Inv pName L done rest st ->
  (addEscaped st = 0 \/ addEscaped st = 1 \/ addEscaped st = 2) /\
  (addEscaped st <> 0 -> head_escaped rest).
Proof.
  intros [segs _ _ _ _ _ Ha _ | segs cur pend _ _ _ _ Hpe _].
  - destruct Ha as [Ha | [Ha He]]; rewrite Ha; split; auto; intros; lia.
  - destruct Hpe as [Ha | Ha _ He | Ha He]; rewrite Ha; split; auto;
      intros; lia.
Qed.

Lemma Inv_idle_at_end done st : Inv pName L done [] st -> addEscaped st = 0.
Proof.
  intros HI. destruct (Inv_pending _ _ _ HI) as [_ H].
  destruct (Z.eq_dec (addEscaped st) 0) as [E|E]; [exact E|].
  destruct (H E) as (c & r & Hcr & _). discriminate.
Qed.

Lemma addEscaped_line_check st :
  addEscaped (line_check L sink st) = addEscaped st.
Proof. unfold line_check. now destruct (_ || _). Qed.

(** The input cursor moves over an escaped character only in the step that
    writes its mnemonic, right behind the backslash. *)
Lemma advance_spec done c rest st st' :
  Inv pName L done (c :: rest) st ->
  step pName L sink c st = (st', true) ->
  addEscaped st' = 0 /\
  (escapeRequired c = true ->
   addEscaped st = 1 /\
   (exists before, outBuf st = before ++ [x5c]) /\
   st' = line_check L sink (set_addEscaped 0 (put (escapedChar c) st))).
Proof.
  pose proof (prefixLength_plen pName) as HP.
  intros [segs Hd Hs Hp Hk Hb Ha Hr | segs cur pend Hd Hs Hp Hb Hpe Hlen] Hstep.
  - assert (Hw : writeLine st = false) by apply Hs.
    destruct (Nat.eq_dec (length (outBuf st)) (plen pName)) as [Hfull|Hpart].
    + rewrite step_quote in Hstep by (try assumption; unfold offset; lia).
      discriminate.
    + rewrite step_lead in Hstep by (try assumption; unfold offset; lia).
      discriminate.
  - assert (Hw : writeLine st = false) by apply Hs.
    assert (Ho : prefixLength pName < offset st).
    { unfold offset. rewrite Hb, length_app, length_lead. cbn [length]. lia. }
    destruct Hpe as [Ha | Ha Hfit He | Ha He].
    + destruct (escapeRequired c) eqn:Ec.
      * destruct (Z_le_gt_dec (offset st) (L - 4)) as [Hfit|Hnofit].
        -- rewrite step_arm in Hstep by assumption. discriminate.
        -- rewrite step_arm_flush in Hstep by (try assumption; lia).
           discriminate.
      * rewrite step_plain in Hstep by assumption.
        injection Hstep as <-. rewrite addEscaped_line_check.
        split; [exact Ha | discriminate].
    + rewrite step_backslash in Hstep by assumption. discriminate.
    + rewrite step_mnemonic in Hstep by assumption.
      injection Hstep as <-. rewrite addEscaped_line_check.
      split; [reflexivity|]. intros _. split; [exact Ha|].
      split; [|reflexivity].
      exists (lead pName (length segs) ++ x22 :: escape cur).
      rewrite Hb. now rewrite <- app_assoc.
Qed.

Lemma reaches_Inv st0 in0 done0 st rest :
  Inv pName L done0 in0 st0 ->
  reaches pName L sink st0 in0 st rest ->
  exists done, Inv pName L done rest st.
Proof.
  intros H0 Hr. induction Hr as [|st c rest st' adv _ [done HI] Hstep].
  - now exists done0.
  - eexists. exact (step_inv pName L sink HL done c rest st st' adv HI Hstep).
Qed.

(** The executable loop only goes through reachable states. *)
Lemma inner_reaches fuel : forall st0 in0 st rest st' fuel',
  reaches pName L sink st0 in0 st rest ->
  inner pName L sink fuel st rest = Some (st', fuel') ->
  reaches pName L sink st0 in0 st' [].
Proof.
  induction fuel as [|fuel IH]; intros st0 in0 st rest st' fuel' Hr E.
  - destruct rest; [|discriminate]. injection E as <- _. exact Hr.
  - destruct rest as [|c rest]; [injection E as <- _; exact Hr|].
    cbn [inner] in E. destruct (step pName L sink c st) as [st1 adv] eqn:Es.
    eapply (IH st0 in0 st1 (if adv then rest else c :: rest)); [|exact E].
    now apply (reaches_step pName L sink st0 in0 st c rest st1 adv).
Qed.

End Pending.

Lemma length_concat_firstn {A} (ls : list (list A)) k :
  (length (concat (firstn k ls)) <= length (concat ls))%nat.
Proof.
  rewrite <- (firstn_skipn k ls) at 2. rewrite concat_app, length_app. lia.
Qed.

(** C9. Pending-escape invariant.  In every state a run goes through, the
    pending-escape counter is 0, 1 or 2, and when it is not 0 the escape it
    stands for is that of the character under the input cursor; the cursor
    moves past a character that needs escaping only in the step that writes
    its mnemonic right behind the backslash, and leaves the counter at 0.
    So, however the input is cut into read buffers, the counter is 0 at
    every buffer boundary.  This holds whichever writes the output file
    takes. *)
Theorem pending_escape_invariant sink cfg (buffers : list (list byte)) :
  line_length_ok cfg ->
  (forall st rest,
     reaches (name cfg) (lineLen cfg) sink (init_state cfg) (concat buffers)
             st rest ->
     (addEscaped st = 0 \/ addEscaped st = 1 \/ addEscaped st = 2) /\
     (addEscaped st <> 0 -> head_escaped rest) /\
     (forall c rest' st',
        rest = c :: rest' ->
        step (name cfg) (lineLen cfg) sink c st = (st', true) ->
        addEscaped st' = 0 /\
        (escapeRequired c = true ->
         addEscaped st = 1 /\
         (exists before, outBuf st = before ++ [x5c]) /\
         st' = line_check (lineLen cfg) sink
                 (set_addEscaped 0 (put (escapedChar c) st))))) /\
  (forall k, exists st fuel',
     outer (name cfg) (lineLen cfg) sink (fuel_for cfg (concat buffers))
           (init_state cfg) (firstn k buffers) = Some (st, fuel') /\
     addEscaped st = 0).
Proof.
  intros [HL _]. split.
  - intros st rest Hr.
    destruct (reaches_Inv _ _ sink HL _ _ [] _ _ (Inv_init cfg _) Hr) as [done HI].
    destruct (Inv_pending _ _ _ _ _ HI) as [H1 H2].
    split; [exact H1|]. split; [exact H2|].
    intros c rest' st' -> Hstep.
    exact (advance_spec _ _ sink HL done c rest' st st' HI Hstep).
  - intros k. rewrite outer_concat.
    destruct (inner_total (name cfg) (lineLen cfg) sink HL
                (fuel_for cfg (concat buffers)) (init_state cfg) []
                (concat (firstn k buffers))
                (Inv_init cfg _)) as (st & f & E & HI).
    + pose proof (length_concat_firstn buffers k) as Hle.
      pose proof (prefixLength_plen (name cfg)) as HP.
      destruct (concat (firstn k buffers)) as [|c r]; [now left | right].
      unfold fuel_for, phi, offset, plen in *.
      cbn [init_state outBuf addEscaped length pred] in *.
      zcases. nia.
    + exists st, f. split; [exact E|].
      exact (Inv_idle_at_end _ _ _ _ HI).
Qed.

Lemma pending_escape_invariant_witness :
  line_length_ok (cfg_x 22 true) /\
  exists st fuel',
    outer (name (cfg_x 22 true)) (lineLen (cfg_x 22 true)) accept_all
          (fuel_for (cfg_x 22 true) (concat [bytes "A?"; bytes "?B"]))
          (init_state (cfg_x 22 true)) (firstn 1 [bytes "A?"; bytes "?B"])
    = Some (st, fuel') /\
    addEscaped st = 0.
Proof.
  split; [config_ok|].
  apply (pending_escape_invariant accept_all (cfg_x 22 true) [bytes "A?"; bytes "?B"]).
  config_ok.
Defined.

(** ** The line length [main] hands to [parse] *)

Lemma checkLineLength_spec pVariableName lineLength :
  strlen pVariableName + 21 <= INT_MAX ->
  - INT_MAX - 1 <= lineLength <= INT_MAX ->
  checkLineLength pVariableName lineLength
  = if lineLength <? PREFIX_LENGTH + strlen pVariableName + 5
    then (PREFIX_LENGTH + strlen pVariableName + 5,
          [UsingLineLength (PREFIX_LENGTH + strlen pVariableName + 5)
                           lineLength])
    else (lineLength, []).
Proof.
  unfold checkLineLength, minLineLength, to_size_t, to_int, INT_MAX,
    PREFIX_LENGTH, strlen.
  intros Hn Hl.
  rewrite (Z.mod_small (16 + Z.of_nat (length pVariableName) + 5)) by lia.
  rewrite (Z.mod_small (16 + Z.of_nat (length pVariableName) + 5 + 2 ^ 31))
    by lia.
  replace (16 + Z.of_nat (length pVariableName) + 5 + 2 ^ 31 - 2 ^ 31)
    with (16 + Z.of_nat (length pVariableName) + 5) by lia.
  destruct (Z.ltb_spec lineLength 0) as [Hneg|Hpos]; cbn [orb].
  - replace (lineLength <? 16 + Z.of_nat (length pVariableName) + 5)
      with true by (symmetry; apply Z.ltb_lt; lia).
    reflexivity.
  - rewrite (Z.mod_small lineLength) by lia. reflexivity.
Qed.

(** C8. Minimum line length.  For a name of length [n], a requested line
    length below [16 + n + 5], negative ones included, is raised to exactly
    [16 + n + 5], and a request at or above it is kept; [main] then reports
    what [parse] does with that line length: no line is longer than it, and
    every line before the last fills it, or misses it by the one column
    left free when an escape pair is moved to the next line.  The default
    name is one that is not NULL, and the output file may take or refuse
    any of the writes. *)
Theorem minimum_line_length (sink : nat -> bool)
    (inName exe dflt input : list byte) (vn on : option (list byte))
    (b : bool) (requested : Z) :
  let pVariableName := match vn with Some n => n | None => dflt end in
  let minimum := PREFIX_LENGTH + strlen pVariableName + 5 in
  let effective := if requested <? minimum then minimum else requested in
  minimum < INT_MAX ->
  - INT_MAX - 1 <= requested < INT_MAX ->
  fst (checkLineLength pVariableName requested) = effective /\
  exists r,
    parse_on sink (mkConfig inName exe b pVariableName effective) input
    = Some r /\
    main (mkCmdline (Some inName) vn requested b on)
         (mkEnvironment exe (Some input) (Some dflt) true true true true true
                        sink)
    = Some (mkOutcome 0
              (snd (checkLineLength pVariableName requested)
                 ++ [Arrifying pVariableName effective; Done (returned r)])
              (Some (file r))) /\
    Forall (fun l => Z.of_nat (length l) <= effective) (lines r) /\
    Forall (full_line effective) (removelast (lines r)).
Proof.
  intros pVariableName minimum effective Hmin Hreq.
  assert (Hc : checkLineLength pVariableName requested
               = (effective, snd (checkLineLength pVariableName requested))).
  { rewrite checkLineLength_spec
      by (unfold minimum, PREFIX_LENGTH in Hmin; lia).
    subst effective minimum.
    now destruct (requested <? PREFIX_LENGTH + strlen pVariableName + 5). }
  split; [now rewrite Hc|].
  set (cfg := mkConfig inName exe b pVariableName effective).
  assert (Hok : line_length_ok cfg).
  { unfold line_length_ok, prefixLength. cbn [cfg name lineLen].
    subst effective minimum.
    destruct (Z.ltb_spec requested (PREFIX_LENGTH + strlen pVariableName + 5));
      lia. }
  destruct (parse_sized_laid_out sizeof_inputBuffer sink cfg input Hok)
    as (r & st & E & _ & Hl & _ & _ & segs & _ & _ & Hle & Hfull);
    [unfold sizeof_inputBuffer; lia|].
  exists r. split; [exact E|]. rewrite Hl.
  split; [|split; [exact Hle | exact Hfull]].
  unfold main.
  cbn [argInputFileName inputFile argVariableName pDefaultName mallocName
       argLineLength argOutputFileName mallocOutputFileName outputFileOpens
       argBare pExeName mallocOutputBuffer mallocPrefix fwriteOk].
  assert (Hv : match vn with Some n => Some n | None => Some dflt end
               = Some pVariableName) by (subst pVariableName; now destruct vn).
  rewrite Hv, Hc.
  destruct on; cbv iota beta; fold cfg; rewrite E; reflexivity.
Qed.

Lemma minimum_line_length_witness :
  PREFIX_LENGTH + strlen (bytes "x") + 5 < INT_MAX /\
  - INT_MAX - 1 <= -3 < INT_MAX /\
  fst (checkLineLength (bytes "x") (-3)) = 22 /\
  exists r,
    parse_on accept_all
          (mkConfig (bytes "in.txt") (bytes "arrayify") true (bytes "x") 22)
          (bytes "ABCD") = Some r /\
    main (mkCmdline (Some (bytes "in.txt")) (Some (bytes "x")) (-3) true None)
         (mkEnvironment (bytes "arrayify") (Some (bytes "ABCD"))
                        (Some (bytes "in")) true true true true true
                        accept_all)
    = Some (mkOutcome 0
              (snd (checkLineLength (bytes "x") (-3))
                 ++ [Arrifying (bytes "x") 22; Done (returned r)])
              (Some (file r))) /\
    Forall (fun l => Z.of_nat (length l) <= 22) (lines r) /\
    Forall (full_line 22) (removelast (lines r)).
Proof.
  split; [vm_compute; reflexivity|].
  split; [vm_compute; split; congruence|].
  apply (minimum_line_length accept_all (bytes "in.txt") (bytes "arrayify") (bytes "in")
           (bytes "ABCD") (Some (bytes "x")) None true (-3)).
  - vm_compute; reflexivity.
  - vm_compute; split; congruence.
Defined.

(** ** A failed allocation in [parse] *)

(** When one of the two [malloc] calls of [parse] fails, [parse] skips its
    whole body and returns 0; [main] has already decided on success, prints
    the line count and returns 0. *)
Lemma parse_allocation_failure a e inName input dflt :
  argInputFileName a = Some inName ->
  inputFile e = Some input ->
  pDefaultName e = Some dflt ->
  mallocName e = true ->
  mallocOutputFileName e = true ->
  outputFileOpens e = true ->
  mallocOutputBuffer e && mallocPrefix e = false ->
  exists o,
    main a e = Some o /\
    retValue o = 0 /\
    pOutputFile o = Some fopen_w /\
    In (Done 0) (stdout o) /\
    forallb (fun m => negb (diagnostic m)) (stdout o) = true.
Proof.
  intros Ha Hi Hd Hm Hmo Ho Hp. unfold main, parse_sized.
  rewrite Ha, Hi, Hd, Hm, Hmo, Ho, Hp.
  set (v := match argVariableName a with Some n => n | None => dflt end).
  replace (match argVariableName a with Some n => Some n | None => Some dflt end)
    with (Some v) by (subst v; now destruct (argVariableName a)).
  destruct (checkLineLength _ _) as [ll m] eqn:Ec.
  assert (Hm' : forallb (fun m => negb (diagnostic m)) m = true).
  { unfold checkLineLength in Ec.
    destruct (_ || _); injection Ec as <- <-; reflexivity. }
  destruct (argOutputFileName a); cbv iota beta;
    (eexists; split; [reflexivity|];
     cbn [retValue pOutputFile stdout result_rect returned file];
     repeat split;
     [ apply in_or_app; right; right; now left
     | rewrite forallb_app, Hm'; reflexivity ]).
Qed.

(** C7 (the code when the line buffer cannot be allocated).  The run
    [arrayify in.txt -n x -b -o out.c] in which [malloc(lineLength + 1)]
    returns NULL: [main] returns 0, prints no diagnostic, reports zero lines
    written and leaves the output file empty. *)
Theorem allocation_failure_reported_as_success :
  main (mkCmdline (Some (bytes "in.txt")) (Some (bytes "x")) 80 true
                  (Some (bytes "out.c")))
       (mkEnvironment (bytes "arrayify") (Some (bytes "ABCD"))
                      (Some (bytes "in")) true true true false true
                      accept_all)
  = Some (mkOutcome 0 [Arrifying (bytes "x") 80; Done 0] (Some fopen_w)).
Proof. vm_compute. reflexivity. Qed.

(** The line length [main] computes always satisfies what the properties
    of [parse] above ask for. *)
Lemma checkLineLength_ok inName exe b pVariableName requested :
  PREFIX_LENGTH + strlen pVariableName + 5 < INT_MAX ->
  - INT_MAX - 1 <= requested < INT_MAX ->
  line_length_ok
    (mkConfig inName exe b pVariableName
              (fst (checkLineLength pVariableName requested))).
Proof.
  intros Hmin Hreq.
  rewrite checkLineLength_spec by (unfold PREFIX_LENGTH in Hmin; lia).
  unfold line_length_ok, prefixLength. cbn [name lineLen].
  destruct (Z.ltb_spec requested (PREFIX_LENGTH + strlen pVariableName + 5));
    cbn [fst]; lia.
Qed.

(** ** Sample runs *)

(** The three characters A, newline, B with the name x, line length 80,
    bare: one line is counted.  The files being byte sequences, the fix-up
    seeks back over the closing quote and the newline and the semicolon
    takes the place of the quote. *)
Example sample_A_newline_B :
  option_map (fun r => (contents (file r), returned r, lines r))
             (parse (cfg_x 80 true) [x41; x0a; x42])
  = Some (bytes "const char x[] = " ++ [x22] ++ bytes "A\nB;" ++ [x0a], 1,
          [bytes "const char x[] = " ++ [x22] ++ bytes "A\nB" ++ [x22; x0a]]).
Proof. vm_compute. reflexivity. Qed.

(** Two lines at the minimum line length 22 for the name x. *)
Example sample_two_lines :
  option_map (fun r => (returned r, lines r))
             (parse (cfg_x 22 true) (bytes "ABCD"))
  = Some (2, [bytes "const char x[] = " ++ [x22] ++ bytes "AB" ++ [x22; x0a];
              bytes "                 " ++ [x22] ++ bytes "CD" ++ [x22; x0a]]).
Proof. vm_compute. reflexivity. Qed.

(** An escape pair that does not fit is moved to the next line as a whole. *)
Example sample_pair_moved :
  option_map (fun r => (returned r, lines r))
             (parse (cfg_x 22 true) (bytes "A?CD"))
  = Some (3, [bytes "const char x[] = " ++ [x22] ++ bytes "A" ++ [x22; x0a];
              bytes "                 " ++ [x22] ++ bytes "\?" ++ [x22; x0a];
              bytes "                 " ++ [x22] ++ bytes "CD" ++ [x22; x0a]]).
Proof. vm_compute. reflexivity. Qed.

(** The same run on an output file that refuses the second write: three
    lines are handed to [fwrite], two are counted, and the stream is left
    with its error indicator set. *)
Example sample_write_refused :
  option_map (fun r => (returned r, length (lines r), error (file r)))
             (parse_on (fun k => negb (Nat.eqb k 1)) (cfg_x 22 true)
                       (bytes "A?CD"))
  = Some (2, 3%nat, true).
Proof. vm_compute. reflexivity. Qed.
(** * Further properties of [parse] *)

(** ** Every line carries input *)

Lemma render_from_content pName segs n :
  Forall (fun s => s <> []) segs ->
  Forall (fun l => quoted_content pName l <> []) (render_from pName n segs).
Proof.
  intros Hne. revert n.
  induction Hne as [|s segs Hs _ IH]; intros n; cbn [render_from];
    constructor; [|apply IH].
  rewrite quoted_content_render. destruct s as [|c s]; [contradiction|].
  unfold escape. cbn [flat_map]. unfold encode.
  destruct (escapeRequired c); discriminate.
Qed.

(** X1. No line is written without literal content: on every sink, every
    line that [parse] hands to [fwrite] carries at least one character of
    the input.  So there are at most as many lines as the input has bytes,
    and none exactly for the empty input; for an input of at most [INT_MAX]
    bytes the returned count lies between 0 and the number of the lines,
    and on a sink that takes every write it is 0 exactly for the empty
    input. *)
Theorem every_line_carries_input sink cfg input :
  line_length_ok cfg ->
  Z.of_nat (length input) <= INT_MAX ->
  exists r,
    parse_on sink cfg input = Some r /\
    Forall (fun l => quoted_content (name cfg) l <> []) (lines r) /\
    (length (lines r) <= length input)%nat /\
    (lines r = [] <-> input = []) /\
    0 <= returned r <= Z.of_nat (length (lines r)) /\
    ((forall k, sink k = true) -> (returned r = 0 <-> input = [])).
Proof.
  intros Hok Hin.
  assert (Hsize : (0 < sizeof_inputBuffer)%nat) by (unfold sizeof_inputBuffer; lia).
  destruct (run_carries_input sizeof_inputBuffer sink cfg input Hok Hsize)
    as (st & segs & Hrun & Hc & Hw & Hne).
  pose proof (run_counted _ _ _ _ _ _ Hsize Hrun) as Hcount.
  unfold parse_on. rewrite parse_sized_run, Hrun.
  eexists. split; [reflexivity|]. cbn [lines returned].
  assert (Hlen : length (fwrites st) = length segs).
  { rewrite Hw. unfold render_lines. apply render_from_length. }
  pose proof (length_concat_nonempty segs Hne) as Hle. rewrite Hc in Hle.
  assert (Hempty : fwrites st = [] <-> input = []).
  { split.
    - intros H0. rewrite H0 in Hlen. destruct segs; [now rewrite <- Hc|].
      discriminate.
    - intros Hi. rewrite Hi in Hle. destruct (fwrites st); [reflexivity|].
      cbn [length] in *. lia. }
  assert (Hacc : (length (accepted sink (fwrites st)) <= length (fwrites st))%nat)
    by apply accepted_from_length.
  assert (Hret : linesWritten st
                 = Z.of_nat (length (accepted sink (fwrites st)))).
  { rewrite Hcount. apply to_int_small. unfold INT_MAX in Hin. lia. }
  split; [|split; [|split; [|split]]].
  - rewrite Hw. now apply render_from_content.
  - lia.
  - exact Hempty.
  - lia.
  - intros Hall. rewrite <- Hempty, Hret. unfold accepted.
    rewrite accepted_from_all by exact Hall.
    destruct (fwrites st); cbn [length]; split; intros H;
      try reflexivity; try discriminate; lia.
Qed.

Lemma every_line_carries_input_witness :
  line_length_ok (cfg_x 22 true) /\
  Z.of_nat (length (bytes "A?CD")) <= INT_MAX /\
  exists r,
    parse_on (fun k => negb (Nat.eqb k 1)) (cfg_x 22 true) (bytes "A?CD")
    = Some r /\
    Forall (fun l => quoted_content (name (cfg_x 22 true)) l <> []) (lines r) /\
    (length (lines r) <= length (bytes "A?CD"))%nat /\
    (lines r = [] <-> bytes "A?CD" = []) /\
    0 <= returned r <= Z.of_nat (length (lines r)) /\
    ((forall k, (fun k => negb (Nat.eqb k 1)) k = true) ->
     (returned r = 0 <-> bytes "A?CD" = [])).
Proof.
  split; [config_ok|]. split; [vm_compute; congruence|].
  apply (every_line_carries_input (fun k => negb (Nat.eqb k 1)) (cfg_x 22 true)
           (bytes "A?CD")); [config_ok | vm_compute; congruence].
Defined.

(** ** The file that [parse] leaves *)

Lemma fixup_at_end b text :
  fixup b (at_end (text ++ POSTFIX)) = at_end (text ++ endfix b).
Proof.
  assert (H : forall data, (2 <= length data)%nat ->
            fwrite data (fseek_cur (- POSTFIX_LENGTH) (at_end (text ++ POSTFIX)))
            = at_end (text ++ data)).
  { intros data Hd. unfold fseek_cur, at_end, POSTFIX_LENGTH.
    cbn [position contents]. rewrite length_app. cbn [length POSTFIX].
    replace (Z.of_nat (length text + 2) + - (2) <? 0) with false
      by (symmetry; apply Z.ltb_ge; lia).
    replace (Z.to_nat (Z.of_nat (length text + 2) + - (2)))
      with (length text) by lia.
    unfold fwrite. cbn [position contents].
    rewrite firstn_app, firstn_all, Nat.sub_diag. cbn [firstn].
    rewrite skipn_all2 by (rewrite length_app; cbn [length POSTFIX]; lia).
    now rewrite !app_nil_r, length_app. }
  unfold fixup, endfix. destruct b; apply H.
  - cbn. lia.
  - change (length ENDFIX) with 18%nat. lia.
Qed.

Lemma concat_ends_with_postfix (ls : list (list byte)) :
  ls <> [] ->
  Forall (fun l => exists body, l = body ++ POSTFIX) ls ->
  exists body, concat ls = body ++ POSTFIX.
Proof.
  destruct ls as [|l ls] using rev_ind; [contradiction|].
  intros _ H. apply Forall_app in H. destruct H as [_ H].
  inversion H as [|? ? [body ->] _]; subst.
  exists (concat ls ++ body). now rewrite concat_snoc, app_assoc.
Qed.

Lemma render_lines_nonempty pName segs input :
  concat segs = input -> input <> [] -> render_lines pName segs <> [].
Proof.
  intros Hc Hi. destruct segs; [now subst | discriminate].
Qed.

(** X2. The output file for an input that is not empty (files are byte
    sequences): after the heading come the lines as they were written,
    except that the last postfix, the closing quote and the newline of the
    last line, is replaced by the terminator: a semicolon and a newline in
    bare mode, the endfix with its comment otherwise.  The closing quote of
    the last line is thus overwritten by the semicolon. *)
Theorem output_file_layout cfg input :
  line_length_ok cfg -> input <> [] ->
  exists r body,
    parse cfg input = Some r /\
    concat (lines r) = body ++ POSTFIX /\
    file r = at_end (heading cfg ++ body ++ endfix (bare cfg)).
Proof.
  intros Hok Hne.
  destruct (parse_with_laid_out sizeof_inputBuffer cfg input Hok)
    as (r & st & E & Hl & _ & Hf & segs & Hc & Hw & _);
    [unfold sizeof_inputBuffer; lia|].
  destruct (concat_ends_with_postfix (lines r)) as [body Hb].
  - rewrite Hl, Hw. exact (render_lines_nonempty _ _ _ Hc Hne).
  - rewrite Hl, Hw. apply render_from_postfix.
  - exists r, body. split; [exact E|]. split; [exact Hb|].
    rewrite Hf, Hb, app_assoc, fixup_at_end. now rewrite <- app_assoc.
Qed.

Lemma output_file_layout_witness :
  line_length_ok (cfg_x 22 false) /\ bytes "A?CD" <> [] /\
  exists r body,
    parse (cfg_x 22 false) (bytes "A?CD") = Some r /\
    concat (lines r) = body ++ POSTFIX /\
    file r = at_end (heading (cfg_x 22 false) ++ body
                       ++ endfix (bare (cfg_x 22 false))).
Proof.
  split; [config_ok|]. split; [discriminate|].
  apply (output_file_layout (cfg_x 22 false) (bytes "A?CD"));
    [config_ok | discriminate].
Defined.

(** ** The buffers stay within their bounds *)

Lemma assemble_offset pName L c st :
  offset (fst (assemble pName L c st)) <= offset st + 1.
Proof.
  unfold assemble.
  destruct (offset st <? prefixLength pName);
    [cbn [fst]; rewrite offset_put; lia|].
  destruct (offset st =? prefixLength pName);
    [cbn [fst]; rewrite offset_put; unfold offset; cbn; lia|].
  destruct (addEscaped st =? 2);
    [cbn [fst]; change (offset (put x5c st) <= offset st + 1);
     rewrite offset_put; lia|].
  destruct (addEscaped st =? 1);
    [cbn [fst];
     change (offset (put (escapedChar c) st) <= offset st + 1);
     rewrite offset_put; lia|].
  destruct (escapeRequired c); cbn [fst].
  - destruct (_ >? _); unfold offset; cbn; lia.
  - rewrite offset_put. lia.
Qed.

Lemma iterate_reaches pName L sink steps : forall st0 in0 st rest,
  reaches pName L sink st0 in0 st rest ->
  reaches pName L sink st0 in0
          (fst (iterate pName L sink steps st rest))
          (snd (iterate pName L sink steps st rest)).
Proof.
  induction steps as [|n IH]; intros st0 in0 st rest Hr; [exact Hr|].
  destruct rest as [|c rest]; [exact Hr|].
  cbn [iterate]. destruct (step pName L sink c st) as [st' adv] eqn:Es.
  apply IH. now apply (reaches_step pName L sink st0 in0 st c rest st' adv).
Qed.

(** X4. The output buffer of [lineLength + 1] bytes is never overrun: at
    the head of every iteration at most [lineLength - 3] bytes are in it,
    and after the character of the iteration there is still room for the
    two bytes of the postfix.  The prefix buffer is read only while it is
    allocated, at an index inside the prefix.  This holds whichever writes
    the output file takes. *)
Theorem buffers_within_bounds sink cfg input st rest :
  line_length_ok cfg ->
  reaches (name cfg) (lineLen cfg) sink (init_state cfg) input st rest ->
  0 <= offset st <= lineLen cfg - 3 /\
  (forall c,
     offset (fst (assemble (name cfg) (lineLen cfg) c st)) + POSTFIX_LENGTH
     <= lineLen cfg) /\
  (forall p, pPrefix st = Some p -> offset st < prefixLength (name cfg) ->
             offset st < Z.of_nat (length p)).
Proof.
  intros [HL _] Hr.
  pose proof (prefixLength_plen (name cfg)) as HP.
  destruct (reaches_Inv _ _ sink HL _ _ [] _ _ (Inv_init cfg _) Hr)
    as [done HI].
  assert (Ho : 0 <= offset st <= lineLen cfg - 3).
  { unfold offset.
    destruct HI as [segs _ _ _ Hk _ _ _ | segs cur pend _ _ _ _ _ Hlen];
      [lia | unfold offset in Hlen; lia]. }
  split; [exact Ho|]. split.
  - intros c. pose proof (assemble_offset (name cfg) (lineLen cfg) c st).
    unfold POSTFIX_LENGTH. lia.
  - intros p Hp Hlt.
    destruct HI as [segs _ _ Hpre _ _ _ _ | segs cur pend _ _ Hpre _ _ _].
    + rewrite Hp in Hpre. destruct segs; [|discriminate].
      injection Hpre as ->. rewrite length_sprintf_PREFIX. lia.
    + rewrite Hp in Hpre. discriminate.
Qed.

Lemma buffers_within_bounds_witness :
  line_length_ok (cfg_x 22 true) /\
  after 19 (cfg_x 22 true) (bytes "AB")
  = (mkState (bytes "const char x[] = " ++ [x22; x41]) None 0 false 0 [],
     bytes "B") /\
  offset (fst (after 19 (cfg_x 22 true) (bytes "AB")))
  = lineLen (cfg_x 22 true) - 3 /\
  0 <= offset (fst (after 19 (cfg_x 22 true) (bytes "AB")))
    <= lineLen (cfg_x 22 true) - 3 /\
  (forall c,
     offset (fst (assemble (name (cfg_x 22 true)) (lineLen (cfg_x 22 true)) c
                           (fst (after 19 (cfg_x 22 true) (bytes "AB")))))
     + POSTFIX_LENGTH <= lineLen (cfg_x 22 true)) /\
  (forall p,
     pPrefix (fst (after 19 (cfg_x 22 true) (bytes "AB"))) = Some p ->
     offset (fst (after 19 (cfg_x 22 true) (bytes "AB")))
     < prefixLength (name (cfg_x 22 true)) ->
     offset (fst (after 19 (cfg_x 22 true) (bytes "AB")))
     < Z.of_nat (length p)).
Proof.
  split; [config_ok|]. split; [reflexivity|]. split; [reflexivity|].
  apply (buffers_within_bounds accept_all (cfg_x 22 true) (bytes "AB")
           (fst (after 19 (cfg_x 22 true) (bytes "AB")))
           (snd (after 19 (cfg_x 22 true) (bytes "AB")))); [config_ok|].
  unfold after. apply iterate_reaches. apply reaches_start.
Defined.

(** ** Line lengths that [main] does not let through *)

Section TooShort.

Variable pName : list byte.
Variable L : Z.
Variable sink : nat -> bool.
Hypothesis Hshort : L <= prefixLength pName + 3.

(** With so short a line the loop never gets behind the opening quote:
    every iteration fills the prefix region or writes the line, and the
    input cursor stays where it is. *)
Lemma step_stuck c st :
  offset st <= prefixLength pName -> writeLine st = false ->
  exists st',
    step pName L sink c st = (st', false) /\
    offset st' <= prefixLength pName /\ writeLine st' = false.
Proof.
  intros Ho Hw. pose proof (prefixLength_plen pName) as HP.
  assert (Hcheck : forall s, offset s <= prefixLength pName + 1 ->
            (offset s = prefixLength pName + 1 -> L - 2 <= offset s) ->
            writeLine s = false ->
            offset (line_check L sink s) <= prefixLength pName /\
            writeLine (line_check L sink s) = false).
  { intros s Hs Hq Hws. unfold line_check, POSTFIX_LENGTH. rewrite Hws.
    rewrite orb_false_r, Z.geb_leb.
    destruct (Z.leb_spec (L - 2) (offset s)) as [Hfl|Hkeep].
    - split; [|reflexivity].
      unfold flush, offset. cbn [outBuf length]. lia.
    - split; [lia | exact Hws]. }
  unfold step, assemble.
  destruct (Z.ltb_spec (offset st) (prefixLength pName)) as [Hlt|Hge].
  - eexists. split; [reflexivity|]. apply Hcheck.
    + rewrite offset_put. lia.
    + rewrite offset_put. lia.
    + exact Hw.
  - replace (offset st =? prefixLength pName) with true
      by (symmetry; apply Z.eqb_eq; lia).
    eexists. split; [reflexivity|]. apply Hcheck.
    + rewrite offset_put. change (offset (free_prefix st)) with (offset st).
      lia.
    + rewrite offset_put. change (offset (free_prefix st)) with (offset st).
      lia.
    + exact Hw.
Qed.

Lemma inner_stuck fuel : forall st c rest,
  offset st <= prefixLength pName -> writeLine st = false ->
  inner pName L sink fuel st (c :: rest) = None.
Proof.
  induction fuel as [|fuel IH]; intros st c rest Ho Hw; [reflexivity|].
  cbn [inner]. destruct (step_stuck c st Ho Hw) as (st' & -> & Ho' & Hw').
  now apply IH.
Qed.

End TooShort.

(** X5. What [main]'s check protects [parse] from: called with a line
    length of at least 2 (so that the buffer holds what is stored) and at
    most [prefixLength + 3], on an input that is not empty, [parse] never
    gets to read the first character; whatever the number of iterations
    allowed and whichever writes the output file takes, its loop is still
    running. *)
Theorem short_line_length_never_ends
    fuel size malloc1 malloc2 sink pOutputFile cfg input :
  2 <= lineLen cfg <= prefixLength (name cfg) + 3 ->
  input <> [] -> (0 < size)%nat ->
  malloc1 && malloc2 = true ->
  parse_sized fuel size malloc1 malloc2 sink pOutputFile cfg input = None.
Proof.
  intros [_ Hshort] Hne Hs Hm. unfold parse_sized. rewrite Hm.
  rewrite run_inner by exact Hs.
  destruct input as [|c rest]; [contradiction|].
  rewrite (inner_stuck (name cfg) (lineLen cfg) sink Hshort); [reflexivity | | reflexivity].
  pose proof (prefixLength_plen (name cfg)).
  unfold offset, init_state. cbn [outBuf length]. lia.
Qed.

Lemma short_line_length_never_ends_witness :
  2 <= lineLen (cfg_x 20 true) <= prefixLength (name (cfg_x 20 true)) + 3 /\
  bytes "A" <> [] /\ (0 < 120)%nat /\ true && true = true /\
  parse_sized 1000 120 true true accept_all fopen_w (cfg_x 20 true)
              (bytes "A") = None.
Proof.
  split; [vm_compute; split; congruence|]. split; [discriminate|].
  split; [lia|]. split; [reflexivity|].
  apply (short_line_length_never_ends 1000 120 true true accept_all fopen_w
           (cfg_x 20 true) (bytes "A"));
    [vm_compute; split; congruence | discriminate | lia | reflexivity].
Defined.

(** ** What the literal is made of *)

Lemma plain_chars_encode c s :
  plain_chars (encode c ++ s)
  = (if escapeRequired c then [] else [c]) ++ plain_chars s.
Proof. destruct c; reflexivity. Qed.

Lemma plain_chars_escape s :
  Forall (fun c => escapeRequired c = false) (plain_chars (escape s)).
Proof.
  induction s as [|c s IH]; [constructor|].
  unfold escape in *. cbn [flat_map]. rewrite plain_chars_encode.
  destruct (escapeRequired c) eqn:Ec; [exact IH | now constructor].
Qed.

(** X6. In the quoted content of every line, a character that needs
    escaping (a double quote, a backslash, a question mark, a newline and
    the other eight) only occurs inside an escape sequence: no character
    outside the escape pairs is one of the twelve. *)
Theorem special_chars_only_in_pairs cfg input :
  line_length_ok cfg ->
  exists r,
    parse cfg input = Some r /\
    Forall (fun l =>
              Forall (fun c => escapeRequired c = false)
                     (plain_chars (quoted_content (name cfg) l)))
           (lines r).
Proof.
  intros Hok.
  destruct (parse_with_laid_out sizeof_inputBuffer cfg input Hok)
    as (r & st & E & Hl & _ & _ & segs & _ & Hw & _);
    [unfold sizeof_inputBuffer; lia|].
  exists r. split; [exact E|]. rewrite Hl, Hw. unfold render_lines.
  generalize 0%nat. clear. induction segs as [|s segs IH]; intros n;
    cbn [render_from]; constructor; [|apply IH].
  rewrite quoted_content_render. apply plain_chars_escape.
Qed.

Lemma special_chars_only_in_pairs_witness :
  line_length_ok (cfg_x 22 true) /\
  exists r,
    parse (cfg_x 22 true) (bytes "A?CD") = Some r /\
    Forall (fun l =>
              Forall (fun c => escapeRequired c = false)
                     (plain_chars (quoted_content (name (cfg_x 22 true)) l)))
           (lines r).
Proof.
  split; [config_ok|].
  apply (special_chars_only_in_pairs (cfg_x 22 true) (bytes "A?CD")). config_ok.
Defined.

Lemma encode_no_newline c : ~ In x0a (encode c).
Proof. destruct c; cbn; intuition discriminate. Qed.

Lemma escape_no_newline s : ~ In x0a (escape s).
Proof.
  induction s as [|c s IH]; [cbn; tauto|].
  unfold escape in *. cbn [flat_map]. intros H.
  apply in_app_or in H. destruct H as [H|H]; [|exact (IH H)].
  exact (encode_no_newline c H).
Qed.

Lemma lead_no_newline pName n : ~ In x0a pName -> ~ In x0a (lead pName n).
Proof.
  intros Hn H. destruct n; cbn [lead] in H.
  - unfold sprintf_PREFIX in H.
    apply in_app_or in H. destruct H as [H|H];
      [cbn in H; intuition discriminate|].
    apply in_app_or in H. destruct H as [H|H]; [exact (Hn H)|].
    cbn in H; intuition discriminate.
  - apply repeat_spec in H. discriminate.
Qed.

(** X7. When the array name holds no newline, every block that the flush
    path writes is one physical line of the file: it ends with a newline
    and holds no other. *)
Theorem one_newline_per_line cfg input :
  ~ In x0a (name cfg) -> line_length_ok cfg ->
  exists r,
    parse cfg input = Some r /\
    Forall (fun l => exists body, l = body ++ [x0a] /\ ~ In x0a body)
           (lines r).
Proof.
  intros Hname Hok.
  destruct (parse_with_laid_out sizeof_inputBuffer cfg input Hok)
    as (r & st & E & Hl & _ & _ & segs & _ & Hw & _);
    [unfold sizeof_inputBuffer; lia|].
  exists r. split; [exact E|]. rewrite Hl, Hw. unfold render_lines.
  generalize 0%nat. clear -Hname. induction segs as [|s segs IH]; intros n;
    cbn [render_from]; constructor; [|apply IH].
  exists (lead (name cfg) n ++ x22 :: escape s ++ [x22]). split.
  - unfold render, POSTFIX.
    repeat (rewrite <- app_assoc || rewrite <- app_comm_cons). reflexivity.
  - intros H. apply in_app_or in H. destruct H as [H|H];
      [exact (lead_no_newline _ _ Hname H)|].
    destruct H as [H|H]; [discriminate|].
    apply in_app_or in H. destruct H as [H|H];
      [exact (escape_no_newline _ H)|].
    cbn in H; intuition discriminate.
Qed.

Lemma one_newline_per_line_witness :
  ~ In x0a (name (cfg_x 22 true)) /\ line_length_ok (cfg_x 22 true) /\
  exists r,
    parse (cfg_x 22 true) [x41; x0a; x42; x43] = Some r /\
    Forall (fun l => exists body, l = body ++ [x0a] /\ ~ In x0a body)
           (lines r).
Proof.
  split; [cbn; intuition discriminate|]. split; [config_ok|].
  apply (one_newline_per_line (cfg_x 22 true) [x41; x0a; x42; x43]);
    [cbn; intuition discriminate | config_ok].
Defined.

(** ** The minimum line length is the least that keeps pairs together *)

Lemma reaches_trans pName L sink st0 in0 st1 r1 st2 r2 :
  reaches pName L sink st0 in0 st1 r1 ->
  reaches pName L sink st1 r1 st2 r2 ->
  reaches pName L sink st0 in0 st2 r2.
Proof.
  intros H1 H2. induction H2 as [|st c rest st' adv _ IH Hs]; [exact H1|].
  exact (reaches_step pName L sink st0 in0 st c rest st' adv IH Hs).
Qed.

(** Lines are only added. *)
Lemma reaches_fwrites pName L sink st0 in0 st rest :
  reaches pName L sink st0 in0 st rest ->
  exists more, fwrites st = fwrites st0 ++ more.
Proof.
  induction 1 as [|st c rest st' adv _ [more IH] Hs].
  - exists []. now rewrite app_nil_r.
  - unfold step in Hs.
    destruct (assemble pName L c st) as [st1 a] eqn:Ea.
    injection Hs as <- <-.
    assert (H1 : fwrites st1 = fwrites st).
    { unfold assemble in Ea.
      repeat match type of Ea with
             | (if ?b then _ else _) = _ => destruct b
             end; injection Ea as <- _; try reflexivity;
        destruct (_ >? _); reflexivity. }
    unfold line_check. destruct (_ || _).
    + exists (more ++ [outBuf st1 ++ POSTFIX]). cbn [flush fwrites].
      now rewrite H1, IH, app_assoc.
    + exists more. now rewrite H1.
Qed.

Section Tight.

Variable pName : list byte.
Variable L : Z.
Variable sink : nat -> bool.
Hypothesis HL4 : L = prefixLength pName + 4.

(** The prefix buffer while line [n] is filled. *)
Let pp (n : nat) : option (list byte) :=
  match n with O => Some (sprintf_PREFIX pName) | S _ => None end.

Lemma tight_fill n ae lw ws c k :
  (k < plen pName)%nat ->
  step pName L sink c (mkState (firstn k (lead pName n)) (pp n) ae false lw ws)
  = (mkState (firstn (S k) (lead pName n)) (pp n) ae false lw ws, false).
Proof.
  intros Hk. pose proof (prefixLength_plen pName) as HP.
  assert (Hlen : length (firstn k (lead pName n)) = k)
    by (apply firstn_length_le; rewrite length_lead; lia).
  unfold step, assemble, offset. cbn [outBuf pPrefix]. rewrite Hlen. zcases.
  unfold line_check, offset, put, POSTFIX_LENGTH.
  cbn [outBuf pPrefix addEscaped writeLine linesWritten fwrites].
  rewrite length_app, Hlen. cbn [length]. rewrite orb_false_r. zcases.
  do 2 f_equal.
  rewrite (firstn_snoc_nth x00) by (rewrite length_lead; exact Hk).
  f_equal. f_equal. rewrite Nat2Z.id.
  destruct n; cbn [pp lead]; [reflexivity|].
  symmetry. apply nth_repeat_lt. exact Hk.
Qed.

Lemma tight_filled n ae lw ws c rest st0 in0 k :
  (k <= plen pName)%nat ->
  reaches pName L sink st0 in0 (mkState [] (pp n) ae false lw ws) (c :: rest) ->
  reaches pName L sink st0 in0
          (mkState (firstn k (lead pName n)) (pp n) ae false lw ws) (c :: rest).
Proof.
  intros Hk H0. induction k as [|k IH]; [exact H0|].
  exact (reaches_step pName L sink st0 in0 _ c rest _ false (IH ltac:(lia))
           (tight_fill n ae lw ws c k ltac:(lia))).
Qed.

Lemma tight_quote n ae lw ws c :
  step pName L sink c (mkState (lead pName n) (pp n) ae false lw ws)
  = (mkState (lead pName n ++ [x22]) None ae false lw ws, false).
Proof.
  pose proof (prefixLength_plen pName) as HP.
  unfold step, assemble, offset. cbn [outBuf]. rewrite length_lead. zcases.
  unfold line_check, offset, put, free_prefix, POSTFIX_LENGTH.
  cbn [outBuf pPrefix addEscaped writeLine linesWritten fwrites].
  rewrite length_app, length_lead. cbn [length]. rewrite orb_false_r. zcases.
  reflexivity.
Qed.

Lemma tight_arm n lw ws c :
  escapeRequired c = true ->
  step pName L sink c (mkState (lead pName n ++ [x22]) None 0 false lw ws)
  = (mkState [] None 2 false (count_line (sink (length ws)) lw)
             (ws ++ [(lead pName n ++ [x22]) ++ POSTFIX]), false).
Proof.
  intros Ec. pose proof (prefixLength_plen pName) as HP.
  unfold step, assemble, offset, POSTFIX_LENGTH. cbn [outBuf addEscaped].
  rewrite length_app, length_lead, Ec. cbn [length]. zcases.
  unfold line_check. cbn [writeLine set_writeLine]. rewrite orb_true_r.
  reflexivity.
Qed.

Lemma tight_backslash n lw ws c :
  step pName L sink c (mkState (lead pName n ++ [x22]) None 2 false lw ws)
  = (mkState [] None 1 false (count_line (sink (length ws)) lw)
             (ws ++ [((lead pName n ++ [x22]) ++ [x5c]) ++ POSTFIX]), false).
Proof.
  pose proof (prefixLength_plen pName) as HP.
  unfold step, assemble, offset. cbn [outBuf addEscaped].
  rewrite length_app, length_lead. cbn [length]. zcases.
  unfold line_check, offset, POSTFIX_LENGTH, set_addEscaped, put.
  cbn [outBuf pPrefix addEscaped writeLine linesWritten fwrites].
  rewrite !length_app, length_lead. cbn [length]. zcases.
  reflexivity.
Qed.

Lemma tight_split c rest :
  escapeRequired c = true ->
  reaches pName L sink
    (mkState [] (Some (sprintf_PREFIX pName)) 0 false 0 []) (c :: rest)
    (mkState [] None 1 false (count_line (sink 1) (count_line (sink 0) 0))
       [(sprintf_PREFIX pName ++ [x22]) ++ POSTFIX;
        ((repeat x20 (plen pName) ++ [x22]) ++ [x5c]) ++ POSTFIX])
    (c :: rest).
Proof.
  intros Ec.
  set (st0 := mkState [] (Some (sprintf_PREFIX pName)) 0 false 0 []).
  assert (H1 : reaches pName L sink st0 (c :: rest)
                 (mkState (lead pName 0) (pp 0) 0 false 0 []) (c :: rest)).
  { rewrite <- (firstn_all (lead pName 0)), length_lead.
    apply tight_filled; [lia | apply reaches_start]. }
  pose proof (reaches_step _ _ _ _ _ _ c rest _ false H1
                (tight_quote 0 0 0 [] c)) as H2.
  pose proof (reaches_step _ _ _ _ _ _ c rest _ false H2
                (tight_arm 0 0 [] c Ec)) as H3.
  cbn [app] in H3.
  assert (H4 : reaches pName L sink st0 (c :: rest)
                 (mkState (lead pName 1) (pp 1) 2 false (count_line (sink 0) 0)
                          [(lead pName 0 ++ [x22]) ++ POSTFIX]) (c :: rest)).
  { rewrite <- (firstn_all (lead pName 1)), length_lead.
    apply tight_filled; [lia | exact H3]. }
  pose proof (reaches_step _ _ _ _ _ _ c rest _ false H4
                (tight_quote 1 2 (count_line (sink 0) 0) _ c)) as H5.
  exact (reaches_step _ _ _ _ _ _ c rest _ false H5
           (tight_backslash 1 (count_line (sink 0) 0) _ c)).
Qed.

End Tight.

(** X8. The minimum that [main] enforces cannot be lowered: with a line
    length of [prefixLength + 4], on any input that starts with a character
    that needs escaping, [parse] first writes a line with an empty literal
    and then a line whose literal is a lone backslash; the mnemonic is left
    for a later line.  These stay the first two lines handed to [fwrite],
    whichever writes the output file takes. *)
Theorem minimum_line_length_is_tight sink cfg c rest :
  lineLen cfg = prefixLength (name cfg) + 4 ->
  escapeRequired c = true ->
  exists st,
    reaches (name cfg) (lineLen cfg) sink (init_state cfg) (c :: rest)
            st (c :: rest) /\
    fwrites st
    = [sprintf_PREFIX (name cfg) ++ [x22] ++ POSTFIX;
       repeat x20 (plen (name cfg)) ++ [x22; x5c] ++ POSTFIX] /\
    addEscaped st = 1 /\
    forall st' rest',
      reaches (name cfg) (lineLen cfg) sink st (c :: rest) st' rest' ->
      exists more, fwrites st' = fwrites st ++ more.
Proof.
  intros HL Ec. eexists. split; [exact (tight_split _ _ sink HL c rest Ec)|].
  cbn [fwrites addEscaped]. split.
  - repeat (rewrite <- app_assoc || rewrite <- app_comm_cons). reflexivity.
  - split; [reflexivity|]. intros st' rest' Hr.
    exact (reaches_fwrites _ _ _ _ _ _ _ Hr).
Qed.

Lemma minimum_line_length_is_tight_witness :
  lineLen (cfg_x 21 true) = prefixLength (name (cfg_x 21 true)) + 4 /\
  escapeRequired x3f = true /\
  exists st,
    reaches (name (cfg_x 21 true)) (lineLen (cfg_x 21 true)) accept_all
            (init_state (cfg_x 21 true)) (x3f :: bytes "AB")
            st (x3f :: bytes "AB") /\
    fwrites st
    = [sprintf_PREFIX (name (cfg_x 21 true)) ++ [x22] ++ POSTFIX;
       repeat x20 (plen (name (cfg_x 21 true))) ++ [x22; x5c] ++ POSTFIX] /\
    addEscaped st = 1 /\
    forall st' rest',
      reaches (name (cfg_x 21 true)) (lineLen (cfg_x 21 true)) accept_all st
              (x3f :: bytes "AB") st' rest' ->
      exists more, fwrites st' = fwrites st ++ more.
Proof.
  split; [reflexivity|]. split; [reflexivity|].
  apply (minimum_line_length_is_tight accept_all (cfg_x 21 true) x3f (bytes "AB"));
    reflexivity.
Defined.


(** * Properties of [main] *)

Lemma parse_sized_returns m1 m2 sink cfg input :
  line_length_ok cfg ->
  exists r,
    parse_sized (fuel_for cfg input) sizeof_inputBuffer m1 m2 sink fopen_w
                cfg input
    = Some r /\
    (m1 && m2 = true -> parse_on sink cfg input = Some r).
Proof.
  intros Hok.
  destruct (parse_sized_laid_out sizeof_inputBuffer sink cfg input Hok)
    as (r & _ & E & _); [unfold sizeof_inputBuffer; lia|].
  destruct (m1 && m2) eqn:Em.
  - exists r. split; [|intros _; exact E].
    unfold parse_sized in *. rewrite Em. cbn [andb] in E. exact E.
  - eexists. unfold parse_sized. rewrite Em. split; [reflexivity|discriminate].
Qed.

Lemma last_snoc {A} (l : list A) (x d : A) : last (l ++ [x]) d = x.
Proof. apply last_last. Qed.

Lemma no_Done_snoc (ms : list message) d :
  (forall y, ~ In (Done y) ms) -> diagnostic d = true ->
  forall y, ~ In (Done y) (ms ++ [d]).
Proof.
  intros Hms Hd y H. apply in_app_or in H. destruct H as [H|[H|[]]];
    [exact (Hms y H) | subst d; discriminate].
Qed.

Lemma no_Done_checkLineLength v requested :
  forall y, ~ In (Done y) (snd (checkLineLength v requested)).
Proof.
  intros y. unfold checkLineLength. destruct (_ || _); cbn [snd In].
  - intros [H|[]]. discriminate.
  - intros [].
Qed.

(** What is common to the runs of [main] that do not get to [parse]. *)
Lemma failed_run ms f :
  (forall y, ~ In (Done y) ms) ->
  f = None \/ f = Some fopen_w ->
  exists o,
    Some (mkOutcome (-1) (ms ++ [Usage]) f) = Some o /\
    retValue o = -1 /\
    (false = false ->
     last (stdout o) (Done 0) = Usage /\
     (forall x, ~ In (Done x) (stdout o)) /\
     (pOutputFile o = None \/ pOutputFile o = Some fopen_w)) /\
    (false = true ->
     exists x f', last (stdout o) Usage = Done x /\ pOutputFile o = Some f').
Proof.
  intros Hms Hf. eexists. split; [reflexivity|].
  cbn [retValue stdout pOutputFile]. split; [reflexivity|].
  split; [|discriminate]. intros _. split; [apply last_snoc|].
  split; [|exact Hf]. now apply no_Done_snoc.
Qed.

(** What is common to the runs of [main] that get to [parse]. *)
Lemma finished_run ms v ll (r : result) :
  exists o,
    Some (mkOutcome 0 (ms ++ [Arrifying v ll; Done (returned r)])
                    (Some (file r))) = Some o /\
    retValue o = 0 /\
    (true = false ->
     last (stdout o) (Done 0) = Usage /\
     (forall x, ~ In (Done x) (stdout o)) /\
     (pOutputFile o = None \/ pOutputFile o = Some fopen_w)) /\
    (true = true ->
     exists x f', last (stdout o) Usage = Done x /\ pOutputFile o = Some f').
Proof.
  eexists. split; [reflexivity|].
  cbn [retValue stdout pOutputFile]. split; [reflexivity|].
  split; [discriminate|]. intros _. exists (returned r), (file r).
  split; [|reflexivity].
  change (ms ++ [Arrifying v ll; Done (returned r)])
    with (ms ++ [Arrifying v ll] ++ [Done (returned r)]).
  rewrite app_assoc. apply last_snoc.
Qed.

(** [main] once the array name is known not to be NULL. *)
Lemma main_named a e inName input v :
  argInputFileName a = Some inName ->
  inputFile e = Some input ->
  mallocName e = true ->
  variableName a e = Some v ->
  uses_null_name a e = false ->
  PREFIX_LENGTH + strlen v + 5 < INT_MAX ->
  - INT_MAX - 1 <= argLineLength a < INT_MAX ->
  exists r,
    parse_sized
      (fuel_for (mkConfig inName (pExeName e) (argBare a) v
                          (fst (checkLineLength v (argLineLength a)))) input)
      sizeof_inputBuffer (mallocOutputBuffer e) (mallocPrefix e) (fwriteOk e)
      fopen_w
      (mkConfig inName (pExeName e) (argBare a) v
                (fst (checkLineLength v (argLineLength a)))) input
    = Some r /\
    main a e
    = if match argOutputFileName a with
         | Some _ => true
         | None => mallocOutputFileName e
         end
      then if outputFileOpens e
           then Some (mkOutcome 0
                        (snd (checkLineLength v (argLineLength a))
                           ++ [Arrifying v
                                 (fst (checkLineLength v (argLineLength a)));
                               Done (returned r)])
                        (Some (file r)))
           else Some (mkOutcome (-1)
                        ((snd (checkLineLength v (argLineLength a))
                            ++ [CannotOpenOutput]) ++ [Usage]) None)
      else Some (mkOutcome (-1)
                   ((snd (checkLineLength v (argLineLength a))
                       ++ [CannotAllocateOutputFileName]) ++ [Usage]) None).
Proof.
  intros Ha Hi Hm Hv Hnull Hname Hreq.
  pose proof (checkLineLength_ok inName (pExeName e) (argBare a) v
                (argLineLength a) Hname Hreq) as Hok.
  destruct (parse_sized_returns (mallocOutputBuffer e) (mallocPrefix e)
              (fwriteOk e) _ input Hok) as (r & Er & _).
  exists r. split; [exact Er|].
  unfold main, variableName, uses_null_name in *.
  rewrite Ha, Hi, Hm in *. rewrite Hv.
  destruct (checkLineLength v (argLineLength a)) as [ll m] eqn:Ec.
  cbn [fst snd] in *.
  destruct (argOutputFileName a) as [o|].
  - destruct (outputFileOpens e); cbv iota beta; [|reflexivity].
    now rewrite Er.
  - destruct (pDefaultName e) as [d|].
    + destruct (mallocOutputFileName e); [|reflexivity].
      destruct (outputFileOpens e); cbv iota beta; [|reflexivity].
      now rewrite Er.
    + destruct (argVariableName a); discriminate.
Qed.

(** X9. The exit status of [main].  When [main] gets to hand a NULL name to
    [strlen] (the input file name has no component that is not made of dots
    only, and the array name or the output file name is to be taken from
    it) it does not return.  In every other case it returns 0 exactly when
    the input file argument is there, the input opens, the names are
    allocated and the output opens, and -1 otherwise.  A run that fails
    ends with the usage text, never calls [parse] (it prints no line count
    and the output file, if it was opened at all, is left empty); a run that
    succeeds ends with the line count. *)
Theorem main_exit_status a e :
  (forall v, variableName a e = Some v ->
             PREFIX_LENGTH + strlen v + 5 < INT_MAX) ->
  - INT_MAX - 1 <= argLineLength a < INT_MAX ->
  if uses_null_name a e then main a e = None
  else
    exists o,
      main a e = Some o /\
      retValue o = (if run_succeeds a e then 0 else -1) /\
      (run_succeeds a e = false ->
       last (stdout o) (Done 0) = Usage /\
       (forall x, ~ In (Done x) (stdout o)) /\
       (pOutputFile o = None \/ pOutputFile o = Some fopen_w)) /\
      (run_succeeds a e = true ->
       exists x f, last (stdout o) Usage = Done x /\ pOutputFile o = Some f).
Proof.
  intros Hname Hreq.
  assert (Hnil : forall y, ~ In (Done y) []) by (intros y []).
  destruct (argInputFileName a) as [inName|] eqn:Ha.
  2:{ unfold uses_null_name, run_succeeds, main. rewrite Ha.
      exact (failed_run [] None Hnil (or_introl eq_refl)). }
  destruct (inputFile e) as [input|] eqn:Hi.
  2:{ unfold uses_null_name, run_succeeds, main. rewrite Ha, Hi.
      apply (failed_run [CannotOpenInput] None); [|now left].
      now apply (no_Done_snoc []). }
  destruct (mallocName e) eqn:Hm.
  2:{ assert (Hu : uses_null_name a e = false).
      { unfold uses_null_name. rewrite Ha, Hi, Hm.
        now destruct (pDefaultName e). }
      rewrite Hu. unfold run_succeeds, main. rewrite Ha, Hi, Hm.
      cbn [andb].
      destruct (argOutputFileName a) as [o|].
      - destruct (outputFileOpens e); cbv iota beta.
        + apply failed_run; [|now right]. now apply (no_Done_snoc []).
        + apply failed_run; [|now left].
          apply no_Done_snoc; [|reflexivity]. now apply (no_Done_snoc []).
      - cbv iota beta. apply failed_run; [|now left].
        now apply (no_Done_snoc []). }
  destruct (uses_null_name a e) eqn:Hu.
  - unfold uses_null_name in Hu. rewrite Ha, Hi, Hm in Hu.
    unfold main. rewrite Ha, Hi, Hm.
    destruct (pDefaultName e) as [d|]; [discriminate|].
    destruct (argVariableName a) as [n|]; [|reflexivity].
    destruct (checkLineLength n (argLineLength a)) as [ll m].
    destruct (argOutputFileName a); [discriminate | reflexivity].
  - assert (Hv : exists v, variableName a e = Some v).
    { unfold uses_null_name in Hu. rewrite Ha, Hi, Hm in Hu.
      unfold variableName.
      destruct (argVariableName a) as [n|]; [now exists n|].
      destruct (pDefaultName e) as [d|]; [now exists d | discriminate]. }
    destruct Hv as [v Hv].
    destruct (main_named a e inName input v Ha Hi Hm Hv Hu (Hname v Hv) Hreq)
      as (r & _ & ->).
    unfold run_succeeds. rewrite Ha, Hi, Hm. cbn [andb].
    destruct (match argOutputFileName a with
              | Some _ => true
              | None => mallocOutputFileName e
              end); cbn [andb].
    + destruct (outputFileOpens e).
      * apply finished_run.
      * apply failed_run; [|now left].
        apply no_Done_snoc; [|reflexivity]. apply no_Done_checkLineLength.
    + apply failed_run; [|now left].
      apply no_Done_snoc; [|reflexivity]. apply no_Done_checkLineLength.
Qed.

Lemma main_exit_status_witness :
  (forall v,
     variableName
       (mkCmdline (Some (bytes "in.txt")) None (-7) true None)
       (mkEnvironment (bytes "arrayify") (Some (bytes "AB"))
          (Some (bytes "in")) true true true true true accept_all)
     = Some v ->
     PREFIX_LENGTH + strlen v + 5 < INT_MAX) /\
  - INT_MAX - 1 <= -7 < INT_MAX /\
  exists o,
    main (mkCmdline (Some (bytes "in.txt")) None (-7) true None)
         (mkEnvironment (bytes "arrayify") (Some (bytes "AB"))
            (Some (bytes "in")) true true true true true accept_all)
    = Some o /\
    retValue o = 0 /\
    exists x f, last (stdout o) Usage = Done x /\ pOutputFile o = Some f.
Proof.
  assert (Hv : forall v,
             variableName
               (mkCmdline (Some (bytes "in.txt")) None (-7) true None)
               (mkEnvironment (bytes "arrayify") (Some (bytes "AB"))
                  (Some (bytes "in")) true true true true true accept_all)
             = Some v ->
             PREFIX_LENGTH + strlen v + 5 < INT_MAX).
  { intros v H. injection H as <-. vm_compute. reflexivity. }
  split; [exact Hv|]. split; [vm_compute; split; congruence|].
  destruct (main_exit_status
              (mkCmdline (Some (bytes "in.txt")) None (-7) true None)
              (mkEnvironment (bytes "arrayify") (Some (bytes "AB"))
                 (Some (bytes "in")) true true true true true accept_all)
              Hv)
    as (o & E & Hr & _ & Hs).
  - vm_compute; split; congruence.
  - exists o. split; [exact E|]. split; [exact Hr|]. now apply Hs.
Defined.

(** The run [arrayify dir/..]: the default name is NULL and [main] hands it
    to [strlen]. *)
Example main_null_default_name :
  main (mkCmdline (Some (bytes "dir/..")) None 80 false None)
       (mkEnvironment (bytes "arrayify") (Some (bytes "AB")) None
          true true true true true accept_all)
  = None.
Proof. reflexivity. Qed.

(** With a name given by -n, the NULL default name is still needed for the
    name of the output file. *)
Example main_null_output_name :
  main (mkCmdline (Some (bytes "dir/..")) (Some (bytes "x")) 80 false None)
       (mkEnvironment (bytes "arrayify") (Some (bytes "AB")) None
          true true true true true accept_all)
  = None.
Proof. reflexivity. Qed.

(** A run that fails: the output file name cannot be allocated. *)
Example main_output_name_not_allocated :
  main (mkCmdline (Some (bytes "in.txt")) None (-7) false None)
       (mkEnvironment (bytes "arrayify") (Some (bytes "AB"))
          (Some (bytes "in")) true false true true true accept_all)
  = Some (mkOutcome (-1)
            [UsingLineLength 23 (-7); CannotAllocateOutputFileName; Usage]
            None).
Proof. vm_compute. reflexivity. Qed.

(** X10. Whatever line length is asked for, a run of [main] that succeeds,
    that needs no name that is NULL, whose [parse] gets its buffers and
    whose input has at most [INT_MAX] bytes hands [parse] the larger of the
    requested length and [16 + strlen(name) + 5], returns 0, leaves the file
    of [parse] as the output file and prints the count that [parse]
    returned, which is the number of the lines that the output file took;
    the lines of that run are well formed, and read back they are the input
    file. *)
Theorem successful_run_reads_back a e inName input v :
  argInputFileName a = Some inName ->
  inputFile e = Some input ->
  run_succeeds a e = true ->
  uses_null_name a e = false ->
  variableName a e = Some v ->
  mallocOutputBuffer e && mallocPrefix e = true ->
  PREFIX_LENGTH + strlen v + 5 < INT_MAX ->
  - INT_MAX - 1 <= argLineLength a < INT_MAX ->
  Z.of_nat (length input) <= INT_MAX ->
  exists r msgs,
    parse_on (fwriteOk e)
      (mkConfig inName (pExeName e) (argBare a) v
         (Z.max (argLineLength a) (PREFIX_LENGTH + strlen v + 5)))
      input = Some r /\
    main a e = Some (mkOutcome 0 (msgs ++ [Done (returned r)])
                               (Some (file r))) /\
    returned r = Z.of_nat (length (accepted (fwriteOk e) (lines r))) /\
    unescape (literal v (lines r)) = Some input.
Proof.
  intros Ha Hi Hs Hu Hv Hm Hname Hreq Hin.
  assert (Hsize : (0 < sizeof_inputBuffer)%nat) by (unfold sizeof_inputBuffer; lia).
  pose proof Hs as Hs'. unfold run_succeeds in Hs'. rewrite Ha, Hi in Hs'.
  apply andb_prop in Hs'. destruct Hs' as [Hs' Hopen].
  apply andb_prop in Hs'. destruct Hs' as [Hmn Hout].
  set (ll := Z.max (argLineLength a) (PREFIX_LENGTH + strlen v + 5)).
  set (cfg := mkConfig inName (pExeName e) (argBare a) v ll).
  assert (Hc : checkLineLength v (argLineLength a)
               = (ll, snd (checkLineLength v (argLineLength a)))).
  { rewrite checkLineLength_spec by (unfold PREFIX_LENGTH in Hname; lia).
    subst ll.
    destruct (Z.ltb_spec (argLineLength a) (PREFIX_LENGTH + strlen v + 5));
      cbn [snd]; f_equal; lia. }
  assert (Hok : line_length_ok cfg).
  { unfold line_length_ok, prefixLength. cbn [cfg name lineLen]. subst ll. lia. }
  destruct (main_named a e inName input v Ha Hi Hmn Hv Hu Hname Hreq)
    as (r & Er & Emain).
  rewrite Hout, Hopen, Hc in Emain. rewrite Hc in Er. cbn [fst] in Er, Emain.
  fold cfg in Er.
  assert (Ep : parse_on (fwriteOk e) cfg input = Some r).
  { unfold parse_on. unfold parse_sized in *. rewrite Hm in Er. exact Er. }
  destruct (parse_sized_laid_out sizeof_inputBuffer (fwriteOk e) cfg input
              Hok Hsize)
    as (r' & st & E & Hrun & Hl & Hr & _ & segs & Hcs & Hw & _).
  assert (r' = r) by (unfold parse_on in Ep; congruence). subst r'.
  pose proof (run_counted _ _ _ _ _ _ Hsize Hrun) as Hcount.
  destruct (run_carries_input sizeof_inputBuffer (fwriteOk e) cfg input
              Hok Hsize) as (st' & segs' & Hrun' & Hc' & Hw' & Hne).
  assert (st' = st) by congruence. subst st'.
  exists r, (snd (checkLineLength v (argLineLength a)) ++ [Arrifying v ll]).
  split; [exact Ep|]. split; [|split].
  - rewrite Emain, <- app_assoc. reflexivity.
  - rewrite Hr, Hl, Hcount. apply to_int_small.
    pose proof (accepted_from_length (fwriteOk e) 0 (fwrites st)) as Hacc.
    fold (accepted (fwriteOk e) (fwrites st)) in Hacc.
    assert (Hlen : (length (fwrites st) <= length input)%nat).
    { rewrite Hw'. unfold render_lines. rewrite render_from_length, <- Hc'.
      now apply length_concat_nonempty. }
    unfold INT_MAX in Hin. lia.
  - rewrite Hl, Hw. unfold render_lines. cbn [cfg name].
    rewrite literal_render_from, unescape_escape. now rewrite Hcs.
Qed.

Lemma successful_run_reads_back_witness :
  exists r msgs,
    parse_on (fun k => negb (Nat.eqb k 1))
      (mkConfig (bytes "in.txt") (bytes "arrayify") false (bytes "in")
         (Z.max (-7) (PREFIX_LENGTH + strlen (bytes "in") + 5)))
      (bytes "A?CD") = Some r /\
    main (mkCmdline (Some (bytes "in.txt")) None (-7) false None)
         (mkEnvironment (bytes "arrayify") (Some (bytes "A?CD"))
            (Some (bytes "in")) true true true true true
            (fun k => negb (Nat.eqb k 1)))
    = Some (mkOutcome 0 (msgs ++ [Done (returned r)]) (Some (file r))) /\
    returned r
    = Z.of_nat (length (accepted (fun k => negb (Nat.eqb k 1)) (lines r))) /\
    unescape (literal (bytes "in") (lines r)) = Some (bytes "A?CD").
Proof.
  apply (successful_run_reads_back
           (mkCmdline (Some (bytes "in.txt")) None (-7) false None)
           (mkEnvironment (bytes "arrayify") (Some (bytes "A?CD"))
              (Some (bytes "in")) true true true true true
              (fun k => negb (Nat.eqb k 1)))
           (bytes "in.txt") (bytes "A?CD") (bytes "in")); try reflexivity.
  - vm_compute; split; congruence.
  - vm_compute; congruence.
Defined.

(** * The scan of the command line *)

Lemma scan_options_app atoi n : forall args more a,
  (length args <= n)%nat -> awaits_value args = false ->
  scan_options atoi (args ++ more) a
  = scan_options atoi more (scan_options atoi args a).
Proof.
  induction n as [|n IH]; intros args more a Hlen Haw.
  - destruct args; [reflexivity | cbn in Hlen; lia].
  - destruct args as [|arg rest]; [reflexivity|].
    cbn [app scan_options awaits_value] in *.
    assert (Hv : forall f : list byte -> cmdline -> cmdline,
              match rest with
              | [] => true
              | _ :: rest' => awaits_value rest'
              end = false ->
              match rest ++ more with
              | [] => a
              | v :: rest' => scan_options atoi rest' (f v a)
              end
              = scan_options atoi more
                  match rest with
                  | [] => a
                  | v :: rest' => scan_options atoi rest' (f v a)
                  end).
    { intros f H. destruct rest as [|v rest']; [discriminate|].
      cbn [app]. apply IH; [cbn [length] in Hlen; lia | exact H]. }
    destruct (streq arg (bytes "-n")); [exact (Hv set_variableName Haw)|].
    destruct (streq arg (bytes "-l"));
      [exact (Hv (fun v => set_lineLength (atoi v)) Haw)|].
    destruct (streq arg (bytes "-b"));
      [apply IH; [cbn [length] in Hlen; lia | exact Haw]|].
    destruct (streq arg (bytes "-o")); [exact (Hv set_outputFileName Haw)|].
    apply IH; [cbn [length] in Hlen; lia | exact Haw].
Qed.

Lemma scan_options_input atoi n : forall args a,
  (length args <= n)%nat ->
  argInputFileName (scan_options atoi args a) = argInputFileName a.
Proof.
  induction n as [|n IH]; intros args a Hlen.
  - destruct args; [reflexivity | cbn in Hlen; lia].
  - destruct args as [|arg rest]; [reflexivity|].
    cbn [scan_options]. cbn [length] in Hlen.
    assert (Hv : forall f : list byte -> cmdline -> cmdline,
              (forall v, argInputFileName (f v a) = argInputFileName a) ->
              argInputFileName
                match rest with
                | [] => a
                | v :: rest' => scan_options atoi rest' (f v a)
                end = argInputFileName a).
    { intros f Hf. destruct rest as [|v rest']; [reflexivity|].
      rewrite IH by (cbn [length] in Hlen; lia). apply Hf. }
    destruct (streq arg (bytes "-n")); [now apply (Hv set_variableName)|].
    destruct (streq arg (bytes "-l"));
      [now apply (Hv (fun v => set_lineLength (atoi v)))|].
    destruct (streq arg (bytes "-b")); [now rewrite IH by lia|].
    destruct (streq arg (bytes "-o")); [now apply (Hv set_outputFileName)|].
    apply IH. lia.
Qed.

(** X11. The first argument is always taken as the input file, whatever it
    looks like and whatever follows; and when there is no argument at all,
    [main] prints the usage text and returns -1, whatever it finds outside
    the program. *)
Theorem input_is_first_argument atoi argv :
  argInputFileName (scan_argv atoi argv) = nth_error argv 1 /\
  ((length argv <= 1)%nat ->
   forall e, main (scan_argv atoi argv) e = Some (mkOutcome (-1) [Usage] None)).
Proof.
  split.
  - destruct argv as [|exe [|f rest]]; try reflexivity.
    cbn [scan_argv nth_error].
    now rewrite (scan_options_input atoi (length rest)).
  - intros Hlen e. destruct argv as [|exe [|f rest]]; try reflexivity.
    cbn [length] in Hlen. lia.
Qed.

Lemma input_is_first_argument_witness :
  argInputFileName
    (scan_argv (fun _ => 0) [bytes "arrayify"; bytes "-b"; bytes "-n"])
  = nth_error [bytes "arrayify"; bytes "-b"; bytes "-n"] 1 /\
  (length [bytes "arrayify"] <= 1)%nat /\
  forall e, main (scan_argv (fun _ => 0) [bytes "arrayify"]) e
            = Some (mkOutcome (-1) [Usage] None).
Proof.
  split.
  - apply (input_is_first_argument (fun _ => 0)
             [bytes "arrayify"; bytes "-b"; bytes "-n"]).
  - split; [cbn; lia|].
    apply (input_is_first_argument (fun _ => 0) [bytes "arrayify"]).
    cbn; lia.
Defined.

(** X12. Scanning is sequential: unless the first part of the options
    ends on an option that still waits for its value, scanning the whole is
    scanning the second part from where the first part arrived. *)
Theorem options_compose atoi args more a :
  awaits_value args = false ->
  scan_options atoi (args ++ more) a
  = scan_options atoi more (scan_options atoi args a).
Proof.
  intros H. now apply (scan_options_app atoi (length args)).
Qed.

Lemma options_compose_witness :
  awaits_value [bytes "-n"; bytes "a"; bytes "-b"] = false /\
  scan_options (fun _ => 0)
    ([bytes "-n"; bytes "a"; bytes "-b"] ++ [bytes "-n"; bytes "b"])
    (mkCmdline (Some (bytes "in")) None LINE_LENGTH false None)
  = scan_options (fun _ => 0) [bytes "-n"; bytes "b"]
      (scan_options (fun _ => 0) [bytes "-n"; bytes "a"; bytes "-b"]
         (mkCmdline (Some (bytes "in")) None LINE_LENGTH false None)).
Proof.
  split; [reflexivity|].
  apply (options_compose (fun _ => 0)
           [bytes "-n"; bytes "a"; bytes "-b"] [bytes "-n"; bytes "b"]).
  reflexivity.
Defined.

(** X13. What the scan does with particular arguments, after options that
    are complete: an option given again replaces the earlier one, and its
    value is taken as it is, even when it looks like an option; an option
    that takes a value and comes last, without one, is ignored; an argument
    that is none of the four options is skipped. *)
Theorem options_edge_cases atoi args a :
  awaits_value args = false ->
  (forall v,
     scan_options atoi (args ++ [bytes "-n"; v]) a
     = set_variableName v (scan_options atoi args a) /\
     scan_options atoi (args ++ [bytes "-o"; v]) a
     = set_outputFileName v (scan_options atoi args a) /\
     scan_options atoi (args ++ [bytes "-l"; v]) a
     = set_lineLength (atoi v) (scan_options atoi args a)) /\
  scan_options atoi (args ++ [bytes "-b"]) a
  = set_bare (scan_options atoi args a) /\
  (forall flag,
     In flag [bytes "-n"; bytes "-l"; bytes "-o"] ->
     scan_options atoi (args ++ [flag]) a = scan_options atoi args a) /\
  (forall other more,
     is_option other = false ->
     scan_options atoi (args ++ other :: more) a
     = scan_options atoi (args ++ more) a).
Proof.
  intros Haw.
  pose proof (fun more => scan_options_app atoi (length args) args more a
                            (Nat.le_refl _) Haw) as Happ.
  split; [|split; [|split]].
  - intros v. rewrite !Happ. repeat split; reflexivity.
  - now rewrite Happ.
  - intros flag Hin. rewrite Happ.
    destruct Hin as [<-|[<-|[<-|[]]]]; reflexivity.
  - intros other more Ho. rewrite !Happ. cbn [scan_options].
    unfold is_option in Ho.
    apply orb_false_elim in Ho. destruct Ho as [Ho Eo].
    apply orb_false_elim in Ho. destruct Ho as [Ho Eb].
    apply orb_false_elim in Ho. destruct Ho as [En El].
    now rewrite En, El, Eb, Eo.
Qed.

Lemma options_edge_cases_witness :
  awaits_value [bytes "-n"; bytes "a"] = false /\
  scan_options (fun _ => 0) ([bytes "-n"; bytes "a"] ++ [bytes "-n"; bytes "-b"])
    (mkCmdline (Some (bytes "in")) None LINE_LENGTH false None)
  = set_variableName (bytes "-b")
      (scan_options (fun _ => 0) [bytes "-n"; bytes "a"]
         (mkCmdline (Some (bytes "in")) None LINE_LENGTH false None)).
Proof.
  split; [reflexivity|].
  apply (options_edge_cases (fun _ => 0) [bytes "-n"; bytes "a"]
           (mkCmdline (Some (bytes "in")) None LINE_LENGTH false None)
           eq_refl).
Defined.


(** * The names derived from paths *)

Section Tokens.

Variable delims : list byte.

Lemma take_token_plain s :
  Forall (fun c => is_delim delims c = false) s -> take_token delims s = (s, []).
Proof.
  induction 1 as [|c s Hc _ IH]; [reflexivity|].
  cbn [take_token]. now rewrite Hc, IH.
Qed.

Lemma take_token_spec s tok behind :
  take_token delims s = (tok, behind) ->
  Forall (fun c => is_delim delims c = false) tok /\
  (length tok + length behind <= length s)%nat /\
  (forall P : byte -> Prop, Forall P s -> Forall P tok) /\
  (forall c s', s = c :: s' -> is_delim delims c = false -> tok <> []).
Proof.
  revert tok behind. induction s as [|c s IH]; intros tok behind E.
  - injection E as <- <-. repeat split; auto. intros; discriminate.
  - cbn [take_token] in E. destruct (is_delim delims c) eqn:Ec.
    + injection E as <- <-. repeat split; auto; cbn [length]; try lia.
      intros c' s' H Hc'. injection H as <- _. congruence.
    + destruct (take_token delims s) as [t b] eqn:Et.
      injection E as <- <-.
      destruct (IH t b eq_refl) as (H1 & H2 & H3 & _).
      repeat split.
      * now constructor.
      * cbn [length]. lia.
      * intros P HP. inversion HP; subst. constructor; auto.
      * discriminate.
Qed.

Lemma skip_delims_spec s :
  (length (skip_delims delims s) <= length s)%nat /\
  (forall P : byte -> Prop, Forall P s -> Forall P (skip_delims delims s)) /\
  (skip_delims delims s = [] -> Forall (fun c => is_delim delims c = true) s) /\
  (forall c s', skip_delims delims s = c :: s' -> is_delim delims c = false).
Proof.
  induction s as [|c s (H1 & H2 & H3 & H4)].
  - repeat split; auto. intros; discriminate.
  - cbn [skip_delims]. destruct (is_delim delims c) eqn:Ec.
    + repeat split.
      * cbn [length]. lia.
      * intros P HP. inversion HP; subst. auto.
      * intros H. constructor; auto.
      * exact H4.
    + repeat split; auto.
      * intros; discriminate.
      * intros c' s' H. injection H as <- _. exact Ec.
Qed.

Lemma strtok_spec s tok behind :
  strtok delims s = Some (tok, behind) ->
  tok <> [] /\
  Forall (fun c => is_delim delims c = false) tok /\
  (length behind < length s)%nat /\
  (forall P : byte -> Prop, Forall P s -> Forall P tok).
Proof.
  unfold strtok. destruct (skip_delims_spec s) as (H1 & H2 & _ & H4).
  destruct (skip_delims delims s) as [|c s'] eqn:Es; [discriminate|].
  intros E.
  assert (E' : take_token delims (c :: s') = (tok, behind)) by congruence.
  destruct (take_token_spec _ _ _ E') as (T1 & T2 & T3 & T4).
  pose proof (T4 c s' eq_refl (H4 c s' eq_refl)) as Hne.
  split; [exact Hne|]. split; [exact T1|]. split.
  - destruct tok; [contradiction|]. cbn [length] in *. lia.
  - intros P HP. apply T3. now apply H2.
Qed.

Lemma strtok_none s :
  strtok delims s = None -> Forall (fun c => is_delim delims c = true) s.
Proof.
  unfold strtok. destruct (skip_delims_spec s) as (_ & _ & H3 & _).
  destruct (skip_delims delims s); [intros _; now apply H3 | discriminate].
Qed.

(** The loop ends, on the last token if there is one. *)
Lemma last_token_spec fuel : forall s found,
  (length s < fuel)%nat ->
  exists r,
    last_token fuel delims found s = Some r /\
    ((r = found /\ Forall (fun c => is_delim delims c = true) s) \/
     (exists t, r = Some t /\ t <> [] /\
                Forall (fun c => is_delim delims c = false) t /\
                forall P : byte -> Prop, Forall P s -> Forall P t)).
Proof.
  induction fuel as [|fuel IH]; intros s found Hlen; [lia|].
  cbn [last_token]. destruct (strtok delims s) as [[tok behind]|] eqn:E.
  - destruct (strtok_spec _ _ _ E) as (Hne & Hnd & Hl & Hsub).
    destruct (IH behind (Some tok)) as (r & Er & Hr); [lia|].
    exists r. split; [exact Er|]. right.
    destruct Hr as [[-> _] | (t & -> & Ht1 & Ht2 & Ht3)].
    + exists tok. repeat split; auto.
    + exists t. repeat split; auto.
      intros P HP. apply Ht3.
      (* the characters behind the token are characters of the string *)
      clear -E HP. unfold strtok in E.
      destruct (skip_delims_spec s) as (_ & H2 & _ & _).
      specialize (H2 P HP).
      destruct (skip_delims delims s) as [|c s']; [discriminate|].
      assert (E' : take_token delims (c :: s') = (tok, behind))
        by congruence.
      clear E. revert tok behind E' H2.
      generalize (c :: s') as l. clear.
      induction l as [|x l IHl]; intros tok behind E H.
      * injection E as _ <-. constructor.
      * cbn [take_token] in E. inversion H; subst.
        destruct (is_delim delims x); [injection E as _ <-; assumption|].
        destruct (take_token delims l) as [t b] eqn:Et.
        injection E as _ <-. eapply IHl; eauto.
  - exists found. split; [reflexivity|]. left. split; [reflexivity|].
    now apply strtok_none.
Qed.

End Tokens.

Section Component.

Variable delims : list byte.
Variable sep0 : byte.
Hypothesis Hsep0 : is_delim delims sep0 = true.

(** [comp]: a last component, with no delimiter in it. *)
Variable comp : list byte.
Hypothesis Hcomp : Forall (fun c => is_delim delims c = false) comp.
Hypothesis Hcomp_ne : comp <> [].

Lemma take_token_dir d :
  d <> [] -> is_delim delims (last d sep0) = true ->
  exists tok d2,
    take_token delims (d ++ comp) = (tok, d2 ++ comp) /\
    (length d2 < length d)%nat /\
    is_delim delims (last d2 sep0) = true.
Proof.
  induction d as [|c d IH]; [contradiction|]. intros _ Hlast.
  cbn [app take_token]. destruct (is_delim delims c) eqn:Ec.
  - exists [], d. split; [reflexivity|]. split; [cbn [length]; lia|].
    destruct d; [exact Hsep0 | exact Hlast].
  - destruct d as [|c' d].
    + cbn [last] in Hlast. congruence.
    + destruct (IH ltac:(discriminate) Hlast) as (tok & d2 & E & Hl & Hd2).
      exists (c :: tok), d2. rewrite E.
      split; [reflexivity|]. split; [cbn [length] in *; lia | exact Hd2].
Qed.

Lemma skip_delims_dir d :
  is_delim delims (last d sep0) = true ->
  exists d1,
    skip_delims delims (d ++ comp) = d1 ++ comp /\
    (length d1 <= length d)%nat /\
    is_delim delims (last d1 sep0) = true /\
    (d1 = [] \/ exists c d1', d1 = c :: d1' /\ is_delim delims c = false).
Proof.
  induction d as [|c d IH]; intros Hlast.
  - exists []. cbn [app]. repeat split; auto.
    destruct comp as [|c comp']; [contradiction|].
    inversion Hcomp as [|? ? Hc _]; subst.
    cbn [skip_delims]. now rewrite Hc.
  - cbn [app skip_delims]. destruct (is_delim delims c) eqn:Ec.
    + destruct IH as (d1 & E & Hl & Hd1 & Hhd).
      { destruct d; [exact Hsep0 | exact Hlast]. }
      exists d1. repeat split; auto. cbn [length]. lia.
    + exists (c :: d). repeat split; auto. right. now exists c, d.
Qed.

Lemma last_token_component fuel : forall d found,
  (length (d ++ comp) < fuel)%nat ->
  is_delim delims (last d sep0) = true ->
  last_token fuel delims found (d ++ comp) = Some (Some comp).
Proof.
  induction fuel as [|fuel IH]; intros d found Hlen Hlast; [lia|].
  cbn [last_token]. unfold strtok.
  destruct (skip_delims_dir d Hlast) as (d1 & -> & Hl1 & Hd1 & Hhd).
  rewrite length_app in Hlen.
  destruct Hhd as [-> | (c & d1' & -> & Hc)].
  - cbn [app]. destruct comp as [|c comp'] eqn:Ecomp; [contradiction|].
    rewrite <- Ecomp in *. rewrite take_token_plain by exact Hcomp.
    destruct fuel as [|fuel]; [destruct comp; [contradiction | cbn in Hlen; lia]|].
    reflexivity.
  - cbn [app].
    destruct (take_token_dir (c :: d1') ltac:(discriminate) Hd1)
      as (tok & d2 & E & Hl2 & Hd2).
    cbn [app] in E. rewrite E. apply IH; [|exact Hd2].
    rewrite length_app. lia.
Qed.

End Component.

Lemma skip_dots dots s :
  Forall (fun c => is_delim EXT_SEPARATOR c = true) dots ->
  skip_delims EXT_SEPARATOR (dots ++ s) = skip_delims EXT_SEPARATOR s.
Proof.
  induction 1 as [|c dots Hc _ IH]; [reflexivity|].
  cbn [app skip_delims]. now rewrite Hc.
Qed.

Lemma take_token_base base ext :
  Forall (fun c => is_delim EXT_SEPARATOR c = false) base ->
  ext = [] \/ (exists x, ext = x2e :: x) ->
  fst (take_token EXT_SEPARATOR (base ++ ext)) = base.
Proof.
  intros Hb He. induction Hb as [|c base Hc _ IH].
  - destruct He as [-> | [x ->]]; reflexivity.
  - cbn [app take_token]. rewrite Hc.
    destruct (take_token EXT_SEPARATOR (base ++ ext)) as [t b].
    cbn [fst] in *. now rewrite IH.
Qed.

(** X14. Path and extension are stripped: for a path made of a directory
    part that is empty or ends with a slash or backslash, and a last
    component made of leading dots (possibly none), a name without dots
    and an extension that is empty or starts with a dot, both the program
    name and the default array name are that name. *)
Theorem names_strip_path_and_extension dir dots base ext :
  is_delim DIR_SEPARATORS (last dir x2f) = true ->
  Forall (fun c => is_delim DIR_SEPARATORS c = false) (dots ++ base ++ ext) ->
  Forall (fun c => is_delim EXT_SEPARATOR c = true) dots ->
  base <> [] ->
  Forall (fun c => is_delim EXT_SEPARATOR c = false) base ->
  ext = [] \/ (exists x, ext = x2e :: x) ->
  exeName (dir ++ dots ++ base ++ ext) = Some (Some base) /\
  defaultName (dir ++ dots ++ base ++ ext) = Some (Some base).
Proof.
  intros Hdir Hcomp Hdots Hne Hbase Hext.
  assert (Hcne : dots ++ base ++ ext <> []).
  { destruct dots; [destruct base; [contradiction | discriminate] | discriminate]. }
  assert (Htok : strtok EXT_SEPARATOR (dots ++ base ++ ext)
                 = Some (take_token EXT_SEPARATOR (base ++ ext))).
  { unfold strtok. rewrite skip_dots by exact Hdots.
    destruct base as [|c base']; [contradiction|].
    inversion Hbase as [|? ? Hc _]; subst.
    cbn [app skip_delims]. now rewrite Hc. }
  pose proof (take_token_base base ext Hbase Hext) as Hfst.
  unfold exeName, defaultName.
  rewrite !(last_token_component DIR_SEPARATORS x2f eq_refl
              (dots ++ base ++ ext) Hcomp Hcne) by (try assumption; lia).
  rewrite Htok. destruct (take_token EXT_SEPARATOR (base ++ ext)) as [t b].
  cbn [fst option_map] in *. now subst t.
Qed.

Lemma names_strip_path_and_extension_witness :
  exeName (bytes "/usr/bin/" ++ [] ++ bytes "arrayify" ++ bytes ".exe")
  = Some (Some (bytes "arrayify")) /\
  defaultName (bytes "/usr/bin/" ++ [] ++ bytes "arrayify" ++ bytes ".exe")
  = Some (Some (bytes "arrayify")).
Proof.
  apply (names_strip_path_and_extension (bytes "/usr/bin/") []
           (bytes "arrayify") (bytes ".exe")).
  - reflexivity.
  - repeat constructor.
  - constructor.
  - discriminate.
  - repeat constructor.
  - right. now exists (bytes "exe").
Defined.

Lemma skip_delims_all delims s :
  Forall (fun c => is_delim delims c = true) s -> skip_delims delims s = [].
Proof.
  induction 1 as [|c s Hc _ IH]; [reflexivity|].
  cbn [skip_delims]. now rewrite Hc.
Qed.

Lemma dir_separator_is_no_dot c :
  is_delim DIR_SEPARATORS c = true -> is_delim EXT_SEPARATOR c = false.
Proof. destruct c; cbn; intros H; try discriminate H; reflexivity. Qed.

Lemma dot_is_no_dir_separator c :
  is_delim EXT_SEPARATOR c = true -> is_delim DIR_SEPARATORS c = false.
Proof. destruct c; cbn; intros H; try discriminate H; reflexivity. Qed.

(** X15. Paths without a name.  When the last component of the path
    consists of dots only (as in [..]), the default array name is NULL,
    while the program name keeps the dots; when the path holds nothing but
    slashes and backslashes, the program name is NULL and the default array
    name is the path itself (NULL for the empty path). *)
Theorem names_of_paths_without_a_name :
  (forall dir dots,
     is_delim DIR_SEPARATORS (last dir x2f) = true ->
     dots <> [] ->
     Forall (fun c => is_delim EXT_SEPARATOR c = true) dots ->
     defaultName (dir ++ dots) = Some None /\
     exeName (dir ++ dots) = Some (Some dots)) /\
  (forall seps,
     Forall (fun c => is_delim DIR_SEPARATORS c = true) seps ->
     exeName seps = Some None /\
     defaultName seps
     = Some (match seps with [] => None | _ => Some seps end)).
Proof.
  split.
  - intros dir dots Hdir Hne Hdots.
    assert (Hcomp : Forall (fun c => is_delim DIR_SEPARATORS c = false) dots).
    { eapply Forall_impl; [|exact Hdots]. exact dot_is_no_dir_separator. }
    assert (Htok : strtok EXT_SEPARATOR dots = None).
    { unfold strtok. now rewrite skip_delims_all. }
    unfold exeName, defaultName.
    rewrite !(last_token_component DIR_SEPARATORS x2f eq_refl dots Hcomp Hne)
      by (try assumption; lia).
    now rewrite Htok.
  - intros seps Hseps.
    assert (Htok : strtok DIR_SEPARATORS seps = None).
    { unfold strtok. now rewrite skip_delims_all. }
    unfold exeName, defaultName. cbn [last_token]. rewrite Htok.
    split; [reflexivity|].
    destruct seps as [|c seps']; [reflexivity|].
    assert (Hplain : Forall (fun c => is_delim EXT_SEPARATOR c = false)
                            (c :: seps')).
    { eapply Forall_impl; [|exact Hseps]. exact dir_separator_is_no_dot. }
    unfold strtok. inversion Hplain as [|? ? Hc _]; subst.
    cbn [skip_delims]. rewrite Hc.
    now rewrite (take_token_plain EXT_SEPARATOR (c :: seps') Hplain).
Qed.

Lemma names_of_paths_without_a_name_witness :
  defaultName (bytes "dir/" ++ bytes "..") = Some None /\
  exeName (bytes "dir/" ++ bytes "..") = Some (Some (bytes "..")).
Proof.
  apply (proj1 names_of_paths_without_a_name (bytes "dir/") (bytes "..")).
  - reflexivity.
  - discriminate.
  - repeat constructor.
Defined.

Lemma Forall_Exists_delim delims (s : list byte) :
  Forall (fun c => is_delim delims c = true) s ->
  Exists (fun c => is_delim delims c = false) s -> False.
Proof.
  intros HF HE. apply Exists_exists in HE. destruct HE as (c & Hin & Hc).
  rewrite Forall_forall in HF. specialize (HF c Hin). congruence.
Qed.

(** X16. The two derivations always end, and what they find is clean: a
    program name that is not NULL is not empty and holds no slash or
    backslash; for a path with at least one character other than these, a
    default array name that is not NULL is not empty and holds no slash,
    backslash or dot. *)
Theorem derived_names_are_clean path :
  exists pExe pDefault,
    exeName path = Some pExe /\
    defaultName path = Some pDefault /\
    (forall n, pExe = Some n ->
       n <> [] /\ Forall (fun c => is_delim DIR_SEPARATORS c = false) n) /\
    (forall n, pDefault = Some n ->
       Exists (fun c => is_delim DIR_SEPARATORS c = false) path ->
       n <> [] /\
       Forall (fun c => is_delim DIR_SEPARATORS c = false /\
                        is_delim EXT_SEPARATOR c = false) n).
Proof.
  unfold exeName, defaultName.
  destruct (last_token_spec DIR_SEPARATORS (S (length path)) path None
              (Nat.lt_succ_diag_r _)) as (r1 & -> & H1).
  destruct (last_token_spec DIR_SEPARATORS (S (length path)) path (Some path)
              (Nat.lt_succ_diag_r _)) as (r2 & -> & H2).
  assert (Hexe : exists pExe,
            match r1 with
            | Some p => Some (Some match strtok EXT_SEPARATOR p with
                                   | Some (tok, _) => tok
                                   | None => p
                                   end)
            | None => Some None
            end = Some pExe /\
            forall n, pExe = Some n ->
              n <> [] /\ Forall (fun c => is_delim DIR_SEPARATORS c = false) n).
  { destruct H1 as [[-> _] | (t & -> & Hne & Hnd & _)].
    - exists None. split; [reflexivity | discriminate].
    - eexists. split; [reflexivity|]. intros n Hn. injection Hn as <-.
      destruct (strtok EXT_SEPARATOR t) as [[tok b]|] eqn:E; [|now split].
      destruct (strtok_spec _ _ _ _ E) as (Tne & _ & _ & Tsub).
      split; [exact Tne | now apply Tsub]. }
  destruct Hexe as (pExe & -> & HpExe).
  assert (Hdef : exists pDefault,
            match r2 with
            | Some p => Some (option_map fst (strtok EXT_SEPARATOR p))
            | None => Some None
            end = Some pDefault /\
            forall n, pDefault = Some n ->
              Exists (fun c => is_delim DIR_SEPARATORS c = false) path ->
              n <> [] /\
              Forall (fun c => is_delim DIR_SEPARATORS c = false /\
                               is_delim EXT_SEPARATOR c = false) n).
  { destruct H2 as [[-> Hall] | (t & -> & Hne & Hnd & _)].
    - eexists. split; [reflexivity|]. intros n _ Hex.
      destruct (Forall_Exists_delim _ _ Hall Hex).
    - eexists. split; [reflexivity|]. intros n Hn _.
      destruct (strtok EXT_SEPARATOR t) as [[tok b]|] eqn:E;
        [|discriminate].
      cbn [option_map fst] in Hn. injection Hn as <-.
      destruct (strtok_spec _ _ _ _ E) as (Tne & Tnd & _ & Tsub).
      split; [exact Tne|].
      specialize (Tsub _ Hnd). rewrite Forall_forall in *.
      intros c Hc. split; [now apply Tsub | now apply Tnd]. }
  destruct Hdef as (pDefault & -> & HpDef).
  exists pExe, pDefault. auto.
Qed.

Lemma derived_names_are_clean_witness :
  exists pExe pDefault,
    exeName (bytes "./a.b/c.tar.gz") = Some pExe /\
    defaultName (bytes "./a.b/c.tar.gz") = Some pDefault /\
    (forall n, pExe = Some n ->
       n <> [] /\ Forall (fun c => is_delim DIR_SEPARATORS c = false) n) /\
    (forall n, pDefault = Some n ->
       Exists (fun c => is_delim DIR_SEPARATORS c = false)
              (bytes "./a.b/c.tar.gz") ->
       n <> [] /\
       Forall (fun c => is_delim DIR_SEPARATORS c = false /\
                        is_delim EXT_SEPARATOR c = false) n).
Proof. exact (derived_names_are_clean (bytes "./a.b/c.tar.gz")). Defined.

